(** * Hexagon resource game: the action engine of [alchemy.js]

    A shallow embedding of the [HexGame] component: the authored tile
    table [TILE_DATA], the six [DIRECTIONS], and the four click handlers
    [move], [gather], [alchemy] and [restoreAP], followed by the
    properties of the map and of the action state machine.

    Modelling conventions.
    - JavaScript numbers that the engine handles are integers (action
      points, axial coordinates, resource counts); they are embedded as
      [Z].  Doubles are exact on integers below 2^53, far above anything a
      session reaches.
    - Template literals [`${q},${r}`] print integers in decimal with a
      leading minus sign; this is stdpp's [pretty] on [Z].
    - An object used as a dictionary ([TILE_DATA], [inventory]) is a
      [gmap string _]; a resource table, which is also enumerated in
      insertion order by [Object.entries], is an association list.
    - A handler closes over the values of one render ([playerPos], [ap],
      [inventory]) and queues new values with the setters; the next render
      sees the queued values.  Handlers are written in a small monad that
      reads from the render snapshot and writes the next state. *)

From Stdlib Require Import Ascii.
From stdpp Require Import gmap strings list fin_maps pretty.

#[local] Open Scope string_scope.
#[local] Open Scope Z_scope.

(** ** Data model *)

(** [{ q, r }]: an axial coordinate. *)
Record Pos := mkPos { q : Z; r : Z }.

(** One value of [TILE_DATA]: [{ type, color, icon, resources }]. *)
Record Tile := mkTile {
  type : string;
  color : string;
  icon : string;
  resources : list (string * Z)
}.

#[global] Instance Pos_eq_dec : EqDecision Pos.
Proof. solve_decision. Defined.

(** The object literal [TILE_DATA], entry by entry in source order.  The
    literal is authored in blocks, each under a comment naming its ring. *)
Definition HOME_ENTRY : string * Tile :=
  ("0,0", mkTile "home" "#8B4513" "home" []).

(** Ring 1 (immediate neighbors) *)
Definition RING_1 : list (string * Tile) :=
  [
    ("0,-1", mkTile "plain" "#F0E68C" "plain" [("wood", 3); ("herbs", 1)]);
    ("1,-1", mkTile "plain" "#F0E68C" "plain" [("stone", 2); ("iron", 1)]);
    ("1,0", mkTile "plain" "#F0E68C" "plain" [("wood", 3); ("herbs", 1)]);
    ("0,1", mkTile "plain" "#F0E68C" "plain" [("wood", 3); ("herbs", 1)]);
    ("-1,1", mkTile "plain" "#F0E68C" "plain" [("stone", 2); ("iron", 1)]);
    ("-1,0", mkTile "plain" "#F0E68C" "plain" [("wood", 3); ("herbs", 1)])
  ].

(** Ring 2 *)
Definition RING_2 : list (string * Tile) :=
  [
    ("0,-2", mkTile "forest" "#228B22" "tree" [("stone", 2); ("iron", 1)]);
    ("1,-2", mkTile "forest" "#228B22" "tree" [("fish", 2); ("water", 3)]);
    ("2,-2", mkTile "forest" "#228B22" "tree" [("stone", 2); ("iron", 1)]);
    ("2,-1", mkTile "forest" "#228B22" "tree" [("fish", 2); ("water", 3)]);
    ("2,0", mkTile "forest" "#228B22" "tree" [("stone", 2); ("iron", 1)]);
    ("1,1", mkTile "forest" "#228B22" "tree" [("stone", 2); ("iron", 1)]);
    ("0,2", mkTile "forest" "#228B22" "tree" [("stone", 2); ("iron", 1)]);
    ("-1,2", mkTile "forest" "#228B22" "tree" [("fish", 2); ("water", 3)]);
    ("-2,2", mkTile "forest" "#228B22" "tree" [("stone", 2); ("iron", 1)]);
    ("-2,1", mkTile "forest" "#228B22" "tree" [("fish", 2); ("water", 3)]);
    ("-2,0", mkTile "forest" "#228B22" "tree" [("stone", 2); ("iron", 1)]);
    ("-1,-1", mkTile "forest" "#228B22" "tree" [("stone", 2); ("iron", 1)])
  ].

(** Ring 3 *)
Definition RING_3 : list (string * Tile) :=
  [
    ("0,-3", mkTile "mountain" "#CD853F" "mountain" [("wheat", 2)]);
    ("1,-3", mkTile "water" "#4682B4" "water" [("fish", 2); ("water", 3)]);
    ("2,-3", mkTile "water" "#4682B4" "water" [("wheat", 2)]);
    ("3,-3", mkTile "mountain" "#CD853F" "mountain" [("wheat", 2)]);
    ("3,-2", mkTile "water" "#4682B4" "water" [("wheat", 2)]);
    ("3,-1", mkTile "water" "#4682B4" "water" [("wheat", 2)]);
    ("3,0", mkTile "mountain" "#CD853F" "mountain" [("wheat", 2)]);
    ("2,1", mkTile "water" "#4682B4" "water" [("wheat", 2)]);
    ("1,2", mkTile "water" "#4682B4" "water" [("wheat", 2)]);
    ("0,3", mkTile "mountain" "#CD853F" "mountain" [("wheat", 2)]);
    ("-1,3", mkTile "water" "#4682B4" "water" [("fish", 2); ("water", 3)]);
    ("-2,3", mkTile "water" "#4682B4" "water" [("wheat", 2)]);
    ("-3,3", mkTile "mountain" "#CD853F" "mountain" [("wheat", 2)]);
    ("-3,2", mkTile "water" "#4682B4" "water" [("wheat", 2)]);
    ("-3,1", mkTile "water" "#4682B4" "water" [("wheat", 2)]);
    ("-3,0", mkTile "mountain" "#CD853F" "mountain" [("wheat", 2)]);
    ("-2,-1", mkTile "water" "#4682B4" "water" [("wheat", 2)]);
    ("-1,-2", mkTile "water" "#4682B4" "water" [("wheat", 2)])
  ].

(** Ring 4 *)
Definition RING_4 : list (string * Tile) :=
  [
    ("0,-4", mkTile "plains" "#F0E68C" "plains" [("wheat", 2)]);
    ("1,-4", mkTile "plains" "#F0E68C" "plains" [("wheat", 2)]);
    ("2,-4", mkTile "plains" "#F0E68C" "plains" [("wheat", 2)]);
    ("3,-4", mkTile "plains" "#F0E68C" "plains" [("wheat", 2)]);
    ("4,-4", mkTile "plains" "#F0E68C" "plains" [("wheat", 2)]);
    ("4,-3", mkTile "plains" "#F0E68C" "plains" [("wheat", 2)]);
    ("4,-2", mkTile "plains" "#F0E68C" "plains" [("wheat", 2)]);
    ("4,-1", mkTile "plains" "#F0E68C" "plains" [("wheat", 2)]);
    ("4,0", mkTile "plains" "#F0E68C" "plains" [("wheat", 2)]);
    ("3,1", mkTile "plains" "#F0E68C" "plains" [("wheat", 2)]);
    ("2,2", mkTile "plains" "#F0E68C" "plains" [("wheat", 2)]);
    ("1,3", mkTile "plains" "#F0E68C" "plains" [("wheat", 2)]);
    ("0,4", mkTile "plains" "#F0E68C" "plains" [("wheat", 2)]);
    ("-1,4", mkTile "plains" "#F0E68C" "plains" [("wheat", 2)]);
    ("-2,4", mkTile "plains" "#F0E68C" "plains" [("wheat", 2)]);
    ("-3,4", mkTile "plains" "#F0E68C" "plains" [("wheat", 2)]);
    ("-4,4", mkTile "plains" "#F0E68C" "plains" [("wheat", 2)]);
    ("-4,3", mkTile "plains" "#F0E68C" "plains" [("wheat", 2)]);
    ("-4,2", mkTile "plains" "#F0E68C" "plains" [("wheat", 2)]);
    ("-4,1", mkTile "plains" "#F0E68C" "plains" [("wheat", 2)]);
    ("-4,0", mkTile "plains" "#F0E68C" "plains" [("wheat", 2)]);
    ("-3,-1", mkTile "plains" "#F0E68C" "plains" [("wheat", 2)]);
    ("-2,-2", mkTile "plains" "#F0E68C" "plains" [("wheat", 2)]);
    ("-1,-3", mkTile "plains" "#F0E68C" "plains" [("wheat", 2)])
  ].

Definition TILE_ENTRIES : list (string * Tile) :=
  HOME_ENTRY :: RING_1 ++ RING_2 ++ RING_3 ++ RING_4.

(** [TILE_DATA] as a dictionary.  The literal has no repeated key (lemma
    [TILE_ENTRIES_NoDup] below), so it does not matter which of two equal
    keys an object literal would keep. *)
Definition TILE_DATA : gmap string Tile := list_to_map TILE_ENTRIES.

(** A variant of the table in which the tile east of Home yields nothing;
    the authored table has no such tile. *)
Definition BARREN : gmap string Tile :=
  <["1,0" := mkTile "plain" "#F0E68C" "plain" []]> TILE_DATA.

(** The object literal [DIRECTIONS].  Its keys are the six names that the
    movement buttons pass to [move]; they form the type [Direction].  The
    names live in a module of their own: [N] and [S] are taken. *)
Module Dir.
Inductive t := N | NE | SE | S | SW | NW.
End Dir.
Abbreviation Direction := Dir.t.

Definition DIRECTIONS (direction : Direction) : Pos :=
  match direction with
  | Dir.N => {| q := 0; r := -1 |}
  | Dir.NE => {| q := 1; r := -1 |}
  | Dir.SE => {| q := 1; r := 0 |}
  | Dir.S => {| q := 0; r := 1 |}
  | Dir.SW => {| q := -1; r := 1 |}
  | Dir.NW => {| q := -1; r := 0 |}
  end.

(** The key under which [DIRECTIONS] holds a direction, as the template
    literal [`Moved ${direction}...`] prints it. *)
Definition name (direction : Direction) : string :=
  match direction with
  | Dir.N => "N" | Dir.NE => "NE" | Dir.SE => "SE"
  | Dir.S => "S" | Dir.SW => "SW" | Dir.NW => "NW"
  end.

#[global] Instance Direction_eq_dec : EqDecision Direction.
Proof. solve_decision. Defined.

(** The four [useState] cells of the component.  [message] is the text
    last handed to [showMessage]; the timer that blanks it three seconds
    later belongs to the display and is not part of the state machine. *)
Record Game := mkGame {
  playerPos : Pos;
  ap : Z;
  inventory : gmap string Z;
  message : string
}.

(** The part of the state that the engine's contract speaks about. *)
Definition playerState (g : Game) : Pos * Z * gmap string Z :=
  (playerPos g, ap g, inventory g).

(** The arguments of the [useState] calls. *)
Definition initial : Game :=
  {| playerPos := {| q := 0; r := 0 |};
     ap := 8;
     inventory := ∅;
     message := "Welcome! Move around and gather resources." |}.

(** ** Handlers *)

(** How a handler body ends: it returns, or a [TypeError] escapes it. *)
Inductive completion (A : Type) :=
  | Returned (a : A)
  | TypeError.
Arguments Returned {A} a.
Arguments TypeError {A}.

(** A handler body transforms the state queued for the next render.
    Whatever was queued before an exception stays queued. *)
Definition Handler (A : Type) : Type := Game → completion A * Game.

#[global] Instance Handler_ret : MRet Handler :=
  λ A a next, (Returned a, next).
#[global] Instance Handler_bind : MBind Handler :=
  λ A B k m next,
    match m next with
    | (Returned a, next') => k a next'
    | (TypeError, next') => (TypeError, next')
    end.

Definition setPlayerPos (p : Pos) : Handler unit := λ next,
  (Returned (), {| playerPos := p; ap := ap next;
                   inventory := inventory next; message := message next |}).
Definition setAp (n : Z) : Handler unit := λ next,
  (Returned (), {| playerPos := playerPos next; ap := n;
                   inventory := inventory next; message := message next |}).
Definition setInventory (inv : gmap string Z) : Handler unit := λ next,
  (Returned (), {| playerPos := playerPos next; ap := ap next;
                   inventory := inv; message := message next |}).
Definition setMessage (msg : string) : Handler unit := λ next,
  (Returned (), {| playerPos := playerPos next; ap := ap next;
                   inventory := inventory next; message := msg |}).

Definition showMessage (msg : string) : Handler unit := setMessage msg.

(** Reading a property of [o]: a [TypeError] when [o] is [undefined]. *)
Definition member {A : Type} (o : option A) : Handler A := λ next,
  match o with
  | Some a => (Returned a, next)
  | None => (TypeError, next)
  end.

(** [`${pos.q},${pos.r}`] *)
Definition keyOf (pos : Pos) : string :=
  pretty (q pos) +:+ "," +:+ pretty (r pos).

(** [x || 0] on a property that may be missing: [undefined] and [0] are
    the falsy values a count can take. *)
Definition orZero (x : option Z) : Z :=
  match x with
  | Some v => if bool_decide (v = 0) then 0 else v
  | None => 0
  end.

Definition Object_keys {V : Type} (o : list (string * V)) : list string := o.*1.
Definition Object_entries {V : Type} (o : list (string * V)) : list (string * V) := o.

(** The [forEach] loop of [gather], applied to the copy of the inventory. *)
Definition addResources (entries : list (string * Z)) (inv : gmap string Z)
  : gmap string Z :=
  foldl (λ newInventory '(resource, amount),
           <[resource := orZero (newInventory !! resource) + amount]> newInventory)
        inv entries.

(** [const atHome = playerPos.q === 0 && playerPos.r === 0], the test the
    render uses to enable the buttons. *)
Definition atHome (g : Game) : bool :=
  bool_decide (q (playerPos g) = 0) && bool_decide (r (playerPos g) = 0).

(** The four operations the buttons offer. *)
Inductive Action := Move (d : Direction) | Gather | Alchemy | RestoreAP.

#[global] Instance Action_eq_dec : EqDecision Action.
Proof. solve_decision. Defined.

Section Engine.
(** The handlers close over the tile table; it is a parameter here so
    that their properties can be stated for any authored table. *)
Variable TILES : gmap string Tile.

Definition move (direction : Direction) (now : Game) : Handler unit :=
  if bool_decide (ap now < 1) then
    showMessage "Not enough AP!"
  else
    let dir := DIRECTIONS direction in
    let newPos := {| q := q (playerPos now) + q dir;
                     r := r (playerPos now) + r dir |} in
    let key := keyOf newPos in
    match TILES !! key with
    | Some _ =>
        setPlayerPos newPos ;;
        setAp (ap now - 1) ;;
        showMessage ("Moved " +:+ name direction +:+ ". AP: " +:+ pretty (ap now - 1))
    | None =>
        showMessage "Cannot move there!"
    end.

Definition gather (now : Game) : Handler unit :=
  if bool_decide (ap now < 2) then
    showMessage "Not enough AP! (Need 2 AP)"
  else
    let key := keyOf (playerPos now) in
    tile ← member (TILES !! key);
    if bool_decide (type tile = "home") then
      showMessage "Nothing to gather at home base!"
    else
      let resources := resources tile in
      if bool_decide (length (Object_keys resources) = 0%nat) then
        showMessage "Nothing to gather here!"
      else
        let newInventory := addResources (Object_entries resources) (inventory now) in
        setInventory newInventory ;;
        setAp (ap now - 2) ;;
        let resourceStr :=
          String.concat ", "
            ((λ '(r, a), r +:+ " +" +:+ pretty a) <$> Object_entries resources) in
        showMessage ("Gathered: " +:+ resourceStr).

Definition alchemy (now : Game) : Handler unit :=
  if bool_decide (ap now < 2) then
    showMessage "Not enough AP! (Need 2 AP)"
  else if bool_decide (q (playerPos now) ≠ 0) || bool_decide (r (playerPos now) ≠ 0) then
    showMessage "Must be at home base to use alchemy!"
  else
    setAp (ap now - 2) ;;
    showMessage "Alchemy performed! (Function not yet implemented)".

Definition restoreAP (now : Game) : Handler unit :=
  setAp 8 ;;
  showMessage "AP restored to 8!".

(** One click: the handler runs on the current render's values and the
    queued state becomes the next render's. *)
Definition fire (h : Game → Handler unit) (g : Game) : completion unit * Game :=
  h g g.

Definition handler (a : Action) : Game → Handler unit :=
  match a with
  | Move d => move d
  | Gather => gather
  | Alchemy => alchemy
  | RestoreAP => restoreAP
  end.

Definition step (g : Game) (a : Action) : Game := (fire (handler a) g).2.

Definition run (g : Game) (actions : list Action) : Game := foldl step g actions.

(** States that a session can be in. *)
Inductive reachable : Game → Prop :=
  | reachable_initial : reachable initial
  | reachable_step g a : reachable g → reachable (step g a).
End Engine.

(** ** Vocabulary of the specification *)

(** The specification names the reasons for which an operation is refused;
    the component reports a refusal by the message it shows. *)
Inductive Failure :=
  | InsufficientAP
  | InvalidDestination
  | InvalidLocation
  | NothingToGather.

Definition failure (msg : string) : option Failure :=
  if decide (msg = "Not enough AP!") then Some InsufficientAP
  else if decide (msg = "Not enough AP! (Need 2 AP)") then Some InsufficientAP
  else if decide (msg = "Cannot move there!") then Some InvalidDestination
  else if decide (msg = "Nothing to gather at home base!") then Some InvalidLocation
  else if decide (msg = "Must be at home base to use alchemy!") then Some InvalidLocation
  else if decide (msg = "Nothing to gather here!") then Some NothingToGather
  else None.

(** A click is refused for reason [f]: the handler returns and the message
    it leaves is the one of [f]. *)
Definition failsWith (f : Failure) (out : completion unit * Game) : Prop :=
  out.1 = Returned () ∧ failure (message out.2) = Some f.

(** [c + offset(d)] *)
Definition target (c : Pos) (d : Direction) : Pos :=
  {| q := q c + q (DIRECTIONS d); r := r c + r (DIRECTIONS d) |}.

(** The preconditions of the three guarded operations. *)
Definition movePre (TILES : gmap string Tile) (d : Direction) (g : Game) : Prop :=
  1 ≤ ap g ∧ is_Some (TILES !! keyOf (target (playerPos g) d)).

Definition gatherPre (TILES : gmap string Tile) (g : Game) : Prop :=
  2 ≤ ap g
  ∧ ∃ t, TILES !! keyOf (playerPos g) = Some t ∧ type t ≠ "home" ∧ resources t ≠ [].

Definition alchemyPre (g : Game) : Prop :=
  2 ≤ ap g ∧ playerPos g = {| q := 0; r := 0 |}.

(** Distance between a tile and the centre of the axial grid; a ring is
    the set of tiles at one distance. *)
Definition hexDistance (c : Pos) : Z :=
  (Z.abs (q c) + Z.abs (r c) + Z.abs (q c + r c)) `div` 2.

(** The coordinates with both components between [-n] and [n]. *)
Definition grid (n : Z) : list Pos :=
  a ← seqZ (- n) (2 * n + 1); b ← seqZ (- n) (2 * n + 1); [ {| q := a; r := b |} ].

(** The coordinates of the grid at distance [k] from the centre. *)
Definition ringCoords (k : Z) : list Pos :=
  filter (λ c, hexDistance c = k) (grid k).

(** The count the inventory display shows for a resource. *)
Definition count (inv : gmap string Z) (resource : string) : Z :=
  default 0 (inv !! resource).

(** What one pass over a resource table adds for a resource. *)
Fixpoint yieldOf (entries : list (string * Z)) (resource : string) : Z :=
  match entries with
  | [] => 0
  | (k, amount) :: rest =>
      (if decide (k = resource) then amount else 0) + yieldOf rest resource
  end.

(** The guards of [gather] that let it reach the setters. *)
Definition gatherSucceeds (TILES : gmap string Tile) (g : Game) : bool :=
  bool_decide (2 ≤ ap g) &&
  match TILES !! keyOf (playerPos g) with
  | Some t => bool_decide (type t ≠ "home") && bool_decide (resources t ≠ [])
  | None => false
  end.

(** Number of [Gather] clicks of a run that pass the guards. *)
Fixpoint successfulGathers (TILES : gmap string Tile) (g : Game)
    (actions : list Action) : nat :=
  match actions with
  | [] => 0
  | a :: rest =>
      ((match a with Gather => if gatherSucceeds TILES g then 1 else 0 | _ => 0 end)
       + successfulGathers TILES (step TILES g a) rest)%nat
  end.

(** Coordinates at distance at most four, ring by ring. *)
Definition DISC : list Pos :=
  {| q := 0; r := 0 |} :: ringCoords 1 ++ ringCoords 2 ++ ringCoords 3 ++ ringCoords 4.

(** A string without a comma. *)
Fixpoint commaFree (s : string) : Prop :=
  match s with
  | EmptyString => True
  | String c s' => c ≠ ","%char ∧ commaFree s'
  end.

(** The state [g] showing another message. *)
Definition withMessage (g : Game) (msg : string) : Game :=
  {| playerPos := playerPos g; ap := ap g; inventory := inventory g; message := msg |}.

(** A player on the northern rim tile (0,-4) with [n] action points. *)
Definition onRim (n : Z) : Game :=
  {| playerPos := {| q := 0; r := -4 |}; ap := n;
     inventory := {[ "wheat" := 2 ]}; message := EmptyString |}.

(** A player on the plain east of Home with [n] action points. *)
Definition eastOfHome (n : Z) : Game :=
  {| playerPos := {| q := 1; r := 0 |}; ap := n; inventory := ∅; message := EmptyString |}.

(** A player on the plain north of Home who already holds three wood. *)
Definition northWithWood : Game :=
  {| playerPos := {| q := 0; r := -1 |}; ap := 8;
     inventory := {[ "wood" := 3 ]}; message := EmptyString |}.

(** The initial state with a single action point. *)
Definition homeOneAP : Game :=
  {| playerPos := {| q := 0; r := 0 |}; ap := 1; inventory := ∅; message := EmptyString |}.

(** ** Render *)

(** The values the render derives from the state before it draws:
    [currentTile], [canGather] and [canAlchemy] ([atHome] is above).  The
    conjunction in [canGather] reads [currentTile.resources] only when
    its first two operands are true; on [undefined] that read throws. *)
Definition currentTile (TILES : gmap string Tile) (g : Game) : option Tile :=
  TILES !! keyOf (playerPos g).

Definition canGather (TILES : gmap string Tile) (g : Game) : completion bool :=
  if negb (atHome g) && bool_decide (2 ≤ ap g) then
    match currentTile TILES g with
    | Some t => Returned (bool_decide (0 < length (Object_keys (resources t)))%nat)
    | None => TypeError
    end
  else Returned false.

Definition canAlchemy (g : Game) : bool :=
  atHome g && bool_decide (2 ≤ ap g).

(** [key.split(',')]: the pieces of [key] between commas; never empty. *)
Fixpoint split (key : string) : list string :=
  match key with
  | EmptyString => [EmptyString]
  | String c rest =>
      if decide (c = ","%char) then EmptyString :: split rest
      else match split rest with
           | piece :: pieces => String c piece :: pieces
           | [] => [String c EmptyString]
           end
  end.

Definition digitValue (c : ascii) : option Z :=
  if decide (c = "0"%char) then Some 0
  else if decide (c = "1"%char) then Some 1
  else if decide (c = "2"%char) then Some 2
  else if decide (c = "3"%char) then Some 3
  else if decide (c = "4"%char) then Some 4
  else if decide (c = "5"%char) then Some 5
  else if decide (c = "6"%char) then Some 6
  else if decide (c = "7"%char) then Some 7
  else if decide (c = "8"%char) then Some 8
  else if decide (c = "9"%char) then Some 9
  else None.

Fixpoint digitsValue (acc : Z) (s : string) : option Z :=
  match s with
  | EmptyString => Some acc
  | String c rest =>
      match digitValue c with
      | Some d => digitsValue (10 * acc + d) rest
      | None => None
      end
  end.

(** [Number(s)] on the numerals the keys are made of: decimal digits with
    an optional minus sign in front.  [None] stands for every other
    string; nothing is stated about those. *)
Definition Number (s : string) : option Z :=
  match s with
  | EmptyString => None
  | String c rest =>
      if decide (c = "-"%char) then
        if decide (rest = EmptyString) then None else Z.opp <$> digitsValue 0 rest
      else digitsValue 0 s
  end.

(** [const [q, r] = key.split(',').map(Number)] followed by
    [const isPlayer = q === playerPos.q && r === playerPos.r].  With fewer
    than two pieces [r] is [undefined] and the test is false. *)
Definition isPlayer (key : string) (g : Game) : option bool :=
  match split key with
  | sq :: sr :: _ =>
      match Number sq, Number sr with
      | Some a, Some b =>
          Some (bool_decide (a = q (playerPos g)) && bool_decide (b = r (playerPos g)))
      | _, _ => None
      end
  | _ => Some false
  end.

(** ** Auxiliary notions for the properties *)

(** The direction whose offset is the negation of the offset of [d]. *)
Definition opposite (d : Direction) : Direction :=
  match d with
  | Dir.N => Dir.S | Dir.S => Dir.N
  | Dir.NE => Dir.SW | Dir.SW => Dir.NE
  | Dir.SE => Dir.NW | Dir.NW => Dir.SE
  end.

Definition allDirections : list Direction :=
  [Dir.N; Dir.NE; Dir.SE; Dir.S; Dir.SW; Dir.NW].

(** Distance between two coordinates of the axial grid. *)
Definition hexBetween (a b : Pos) : Z :=
  hexDistance {| q := q b - q a; r := r b - r a |}.

(** A walk from [from] towards [to]: each step takes the first direction
    that brings the walker closer. *)
Fixpoint pathTo (fuel : nat) (from to : Pos) : list Direction :=
  match fuel with
  | O => []
  | S fuel' =>
      match filter (λ d, hexBetween (target from d) to < hexBetween from to) allDirections with
      | d :: _ => d :: pathTo fuel' (target from d) to
      | [] => []
      end
  end.

(** * Properties *)

(** ** Keys *)

(** Decimal numerals contain no comma, so a key determines its coordinate. *)
Lemma pretty_N_go_commaFree (x : N) (s : string) :
  commaFree s → commaFree (pretty_N_go x s).
Proof.
  revert s. induction (N.lt_wf_0 x) as [x _ IH]; intros s Hs.
  destruct (decide (x = 0)%N) as [->|Hx].
  - by rewrite pretty_N_go_0.
  - rewrite pretty_N_go_step by lia.
    apply IH.
    + apply N.div_lt; lia.
    + split; [|done]. unfold pretty_N_char. by repeat case_match.
Qed.

Lemma pretty_Z_commaFree (z : Z) : commaFree (pretty z).
Proof.
  destruct z as [|p|p]; [simpl; by split| |].
  - apply (pretty_N_go_commaFree (N.pos p) EmptyString). done.
  - split; [done|]. apply (pretty_N_go_commaFree (N.pos p) EmptyString). done.
Qed.

Lemma comma_split s1 s2 t1 t2 :
  commaFree s1 → commaFree s2 →
  s1 +:+ "," +:+ t1 = s2 +:+ "," +:+ t2 → s1 = s2 ∧ t1 = t2.
Proof.
  revert s2. induction s1 as [|c s1 IH]; intros [|c' s2] H1 H2 Heq; simpl in *.
  - by simplify_eq.
  - destruct H2 as [? _]. simplify_eq.
  - destruct H1 as [? _]. simplify_eq.
  - destruct H1 as [_ H1], H2 as [_ H2]. simplify_eq.
    destruct (IH s2 H1 H2) as [-> ->]; done.
Qed.

Lemma keyOf_inj (c1 c2 : Pos) : keyOf c1 = keyOf c2 → c1 = c2.
Proof.
  destruct c1 as [q1 r1], c2 as [q2 r2]. unfold keyOf; simpl. intros Heq.
  apply comma_split in Heq as [Hq Hr]; try apply pretty_Z_commaFree.
  apply (inj pretty) in Hq. apply (inj pretty) in Hr. by subst.
Qed.

(** ** The authored table *)

Lemma TILE_ENTRIES_NoDup : NoDup (TILE_ENTRIES.*1).
Proof. compute_done. Qed.

Lemma TILE_DATA_lookup (key : string) (t : Tile) :
  TILE_DATA !! key = Some t ↔ (key, t) ∈ TILE_ENTRIES.
Proof. symmetry. apply elem_of_list_to_map, TILE_ENTRIES_NoDup. Qed.

Lemma DISC_distance (c : Pos) : c ∈ DISC → 0 ≤ hexDistance c ≤ 4.
Proof.
  unfold DISC. rewrite elem_of_cons, !elem_of_app. unfold ringCoords.
  rewrite !list_elem_of_filter. intros [->|[[-> _]|[[-> _]|[[-> _]|[-> _]]]]];
    vm_compute; by split.
Qed.

Lemma hexDistance_bounds (c : Pos) (k : Z) :
  hexDistance c = k → - k ≤ q c ≤ k ∧ - k ≤ r c ≤ k.
Proof.
  unfold hexDistance. intros <-.
  pose proof (Z.div_mod (Z.abs (q c) + Z.abs (r c) + Z.abs (q c + r c)) 2 ltac:(lia)).
  pose proof (Z.mod_pos_bound (Z.abs (q c) + Z.abs (r c) + Z.abs (q c + r c)) 2 ltac:(lia)).
  lia.
Qed.

Lemma elem_of_grid (n : Z) (c : Pos) :
  c ∈ grid n ↔ - n ≤ q c ≤ n ∧ - n ≤ r c ≤ n.
Proof.
  unfold grid. rewrite list_elem_of_bind. split.
  - intros (a & Hb & Ha). apply list_elem_of_bind in Hb as (b & Hc & Hb).
    apply list_elem_of_singleton in Hc as ->. apply elem_of_seqZ in Ha, Hb. simpl. lia.
  - intros [Hq Hr]. exists (q c). split; [|apply elem_of_seqZ; lia].
    apply list_elem_of_bind. exists (r c). split; [|apply elem_of_seqZ; lia].
    destruct c. apply list_elem_of_singleton. done.
Qed.

Lemma elem_of_ringCoords (k : Z) (c : Pos) : c ∈ ringCoords k ↔ hexDistance c = k.
Proof.
  unfold ringCoords. rewrite list_elem_of_filter, elem_of_grid.
  split; [tauto|]. intros H. split; [done|]. by apply hexDistance_bounds.
Qed.

Lemma elem_of_DISC (c : Pos) : c ∈ DISC ↔ hexDistance c ≤ 4.
Proof.
  split; [intros H; by apply DISC_distance|].
  intros Hle. unfold DISC. rewrite elem_of_cons, !elem_of_app, !elem_of_ringCoords.
  assert (0 ≤ hexDistance c) as Hge.
  { unfold hexDistance. apply Z.div_pos; lia. }
  assert (hexDistance c = 0 → c = {| q := 0; r := 0 |}) as H0.
  { intros H. apply hexDistance_bounds in H. destruct c; simpl in *. f_equal; lia. }
  assert (hexDistance c = 0 ∨ hexDistance c = 1 ∨ hexDistance c = 2
          ∨ hexDistance c = 3 ∨ hexDistance c = 4) as [H|H] by lia.
  - left. by apply H0.
  - right. exact H.
Qed.

(** Every authored key is the key of a coordinate of the disc, and every
    coordinate of the disc has its tile. *)
Lemma TILE_ENTRIES_keys :
  Forall (λ e, Exists (λ c, e.1 = keyOf c) DISC) TILE_ENTRIES.
Proof. compute_done. Qed.

Lemma DISC_tiles : Forall (λ c, is_Some (TILE_DATA !! keyOf c)) DISC.
Proof. compute_done. Qed.

Lemma TILE_DATA_present (c : Pos) :
  is_Some (TILE_DATA !! keyOf c) ↔ hexDistance c ≤ 4.
Proof.
  rewrite <- elem_of_DISC. split.
  - intros [t Ht]. apply TILE_DATA_lookup in Ht.
    pose proof (proj1 (Forall_forall _ _) TILE_ENTRIES_keys _ Ht) as Hex.
    apply Exists_exists in Hex as (c' & Hc' & Hkey). simpl in Hkey.
    apply keyOf_inj in Hkey. by subst.
  - intros Hc. by apply (proj1 (Forall_forall _ _) DISC_tiles).
Qed.

Lemma RING_keys :
  Forall (λ e, Exists (λ c, e.1 = keyOf c) (ringCoords 1)) RING_1
  ∧ Forall (λ e, Exists (λ c, e.1 = keyOf c) (ringCoords 2)) RING_2
  ∧ Forall (λ e, Exists (λ c, e.1 = keyOf c) (ringCoords 3)) RING_3
  ∧ Forall (λ e, Exists (λ c, e.1 = keyOf c) (ringCoords 4)) RING_4.
Proof. repeat split; compute_done. Qed.

Lemma TILE_ENTRIES_home :
  Forall (λ e, type e.2 = "home" ↔ e.1 = "0,0") TILE_ENTRIES.
Proof. compute_done. Qed.

Lemma TILE_ENTRIES_amounts :
  Forall (λ e, Forall (λ ra, 0 < ra.2) (resources e.2)) TILE_ENTRIES.
Proof. compute_done. Qed.

(** ** The handlers, case by case *)

Lemma fire_move TILES d g :
  fire (move TILES d) g =
    if bool_decide (ap g < 1) then (Returned (), withMessage g "Not enough AP!")
    else match TILES !! keyOf (target (playerPos g) d) with
         | Some _ =>
             (Returned (),
              {| playerPos := target (playerPos g) d; ap := ap g - 1;
                 inventory := inventory g;
                 message := "Moved " +:+ name d +:+ ". AP: " +:+ pretty (ap g - 1) |})
         | None => (Returned (), withMessage g "Cannot move there!")
         end.
Proof.
  unfold fire, move, target. case_bool_decide; [done|].
  by destruct (TILES !! _).
Qed.

Lemma fire_gather TILES g :
  fire (gather TILES) g =
    if bool_decide (ap g < 2) then (Returned (), withMessage g "Not enough AP! (Need 2 AP)")
    else match TILES !! keyOf (playerPos g) with
         | None => (TypeError, g)
         | Some t =>
             if bool_decide (type t = "home")
             then (Returned (), withMessage g "Nothing to gather at home base!")
             else if bool_decide (resources t = [])
             then (Returned (), withMessage g "Nothing to gather here!")
             else (Returned (),
                   {| playerPos := playerPos g; ap := ap g - 2;
                      inventory := addResources (resources t) (inventory g);
                      message := "Gathered: " +:+
                        String.concat ", "
                          ((λ '(r, a), r +:+ " +" +:+ pretty a) <$> resources t) |})
         end.
Proof.
  unfold fire, gather. case_bool_decide; [done|].
  unfold mbind, Handler_bind, member. destruct (TILES !! _) as [t|]; [|done].
  case_bool_decide; [done|].
  unfold Object_keys, Object_entries. destruct (resources t) as [|e l] eqn:Hres; [done|].
  rewrite (bool_decide_eq_false_2 (_ = 0%nat)) by done.
  by rewrite (bool_decide_eq_false_2 (_ = [])) by done.
Qed.

Lemma fire_alchemy g :
  fire alchemy g =
    if bool_decide (ap g < 2) then (Returned (), withMessage g "Not enough AP! (Need 2 AP)")
    else if atHome g
    then (Returned (),
          {| playerPos := playerPos g; ap := ap g - 2; inventory := inventory g;
             message := "Alchemy performed! (Function not yet implemented)" |})
    else (Returned (), withMessage g "Must be at home base to use alchemy!").
Proof.
  unfold fire, alchemy, atHome. case_bool_decide; [done|].
  repeat case_bool_decide; simpl; try done; lia.
Qed.

Lemma fire_restoreAP g :
  fire restoreAP g =
    (Returned (),
     {| playerPos := playerPos g; ap := 8; inventory := inventory g;
        message := "AP restored to 8!" |}).
Proof. reflexivity. Qed.

(** Off the map [gather] throws before it calls a setter. *)
Lemma step_gather_absent TILES g :
  TILES !! keyOf (playerPos g) = None → playerState (step TILES g Gather) = playerState g.
Proof.
  intros Hnone. unfold step; cbn [handler]. rewrite fire_gather, Hnone.
  by case_bool_decide.
Qed.

Lemma ap_step TILES g a : 0 ≤ ap g ≤ 8 → 0 ≤ ap (step TILES g a) ≤ 8.
Proof.
  intros Hap. unfold step. destruct a as [d| | |]; cbn [handler].
  - rewrite fire_move. case_bool_decide; [done|].
    destruct (TILES !! _); simpl; lia.
  - rewrite fire_gather. case_bool_decide; [done|].
    destruct (TILES !! _); [|done].
    repeat case_bool_decide; simpl; lia.
  - rewrite fire_alchemy. case_bool_decide; [done|].
    destruct (atHome g); simpl; lia.
  - rewrite fire_restoreAP. simpl; lia.
Qed.

Lemma ap_reachable TILES g : reachable TILES g → 0 ≤ ap g ≤ 8.
Proof.
  induction 1 as [|g a _ IH]; [simpl; lia|]. by apply ap_step.
Qed.

(** ** Movement *)

(** C1, as written, at a concrete state: the player stands on the northern
    rim tile (0,-4) with no action point left and asks to go north.  The
    tile is on the map, its northern neighbour is not, and the refusal is
    the one for missing action points, not the one for a missing tile. *)
Lemma blocked_move_without_AP :
  is_Some (TILE_DATA !! keyOf (playerPos (onRim 0)))
  ∧ TILE_DATA !! keyOf (target (playerPos (onRim 0)) Dir.N) = None
  ∧ failsWith InsufficientAP (fire (move TILE_DATA Dir.N) (onRim 0))
  ∧ ¬ failsWith InvalidDestination (fire (move TILE_DATA Dir.N) (onRim 0)).
Proof.
  split; [vm_compute; by eexists|]. split; [by vm_compute|].
  split; [split; by vm_compute|]. intros [_ H]. vm_compute in H. discriminate.
Qed.

(** C1 (amended): for every direction [d] and every coordinate whose
    neighbour in direction [d] is not on the map, [move d] leaves position,
    action points and inventory unchanged whatever the action points are;
    the refusal is [InvalidDestination] when at least one action point is
    available and [InsufficientAP] otherwise. *)
Theorem move_off_map (TILES : gmap string Tile) (d : Direction) (g : Game) :
  TILES !! keyOf (target (playerPos g) d) = None →
  playerState (step TILES g (Move d)) = playerState g
  ∧ (1 ≤ ap g → failsWith InvalidDestination (fire (move TILES d) g))
  ∧ (ap g < 1 → failsWith InsufficientAP (fire (move TILES d) g)).
Proof.
  intros Hnone. unfold step; cbn [handler]. rewrite fire_move, Hnone.
  case_bool_decide; (split; [done|]); split; intros ?; try lia; by split.
Qed.

Lemma move_off_map_witness :
  playerState (step TILE_DATA (onRim 3) (Move Dir.N)) = playerState (onRim 3)
  ∧ (1 ≤ ap (onRim 3) →
     failsWith InvalidDestination (fire (move TILE_DATA Dir.N) (onRim 3)))
  ∧ (ap (onRim 3) < 1 →
     failsWith InsufficientAP (fire (move TILE_DATA Dir.N) (onRim 3))).
Proof.
  apply (move_off_map TILE_DATA Dir.N (onRim 3)).
  vm_compute. reflexivity.
Defined.

(** C6: when [move d] goes through (at least one action point, target
    tile on the map) the action points drop by exactly one, the position
    changes by exactly the offset of [d], and the inventory is untouched. *)
Theorem move_success (TILES : gmap string Tile) (d : Direction) (g : Game) :
  1 ≤ ap g →
  is_Some (TILES !! keyOf (target (playerPos g) d)) →
  let g' := step TILES g (Move d) in
  (fire (move TILES d) g).1 = Returned ()
  ∧ ap g' = ap g - 1
  ∧ q (playerPos g') = q (playerPos g) + q (DIRECTIONS d)
  ∧ r (playerPos g') = r (playerPos g) + r (DIRECTIONS d)
  ∧ inventory g' = inventory g.
Proof.
  intros Hap [t Ht]. unfold step; cbn [handler]. rewrite fire_move, Ht.
  rewrite bool_decide_eq_false_2 by lia. done.
Qed.

Lemma move_success_witness :
  (fire (move TILE_DATA Dir.SW) initial).1 = Returned ()
  ∧ ap (step TILE_DATA initial (Move Dir.SW)) = ap initial - 1
  ∧ q (playerPos (step TILE_DATA initial (Move Dir.SW)))
    = q (playerPos initial) + q (DIRECTIONS Dir.SW)
  ∧ r (playerPos (step TILE_DATA initial (Move Dir.SW)))
    = r (playerPos initial) + r (DIRECTIONS Dir.SW)
  ∧ inventory (step TILE_DATA initial (Move Dir.SW)) = inventory initial.
Proof.
  apply (move_success TILE_DATA Dir.SW initial).
  - vm_compute. discriminate.
  - vm_compute. eexists. reflexivity.
Defined.

(** ** Gathering: refusals *)

(** C2, as written, at a concrete state: the player is on the Home tile
    with a single action point.  [gather] is refused for missing action
    points, not for the location. *)
Lemma home_gather_without_AP :
  (∃ t, TILE_DATA !! keyOf (playerPos homeOneAP) = Some t ∧ type t = "home")
  ∧ failsWith InsufficientAP (fire (gather TILE_DATA) homeOneAP)
  ∧ ¬ failsWith InvalidLocation (fire (gather TILE_DATA) homeOneAP).
Proof.
  split; [eexists; split; by vm_compute|].
  split; [split; by vm_compute|]. intros [_ H]. vm_compute in H. discriminate.
Qed.

(** C2 (amended): with at least two action points, [gather] on a tile of
    type home is refused with [InvalidLocation], and [gather] on any other
    tile whose resource table is empty is refused with [NothingToGather];
    with fewer than two action points the refusal is [InsufficientAP] on
    every tile. *)
Theorem gather_refusals (TILES : gmap string Tile) (g : Game) (t : Tile) :
  TILES !! keyOf (playerPos g) = Some t →
  (2 ≤ ap g → type t = "home" → failsWith InvalidLocation (fire (gather TILES) g))
  ∧ (2 ≤ ap g → type t ≠ "home" → resources t = [] →
     failsWith NothingToGather (fire (gather TILES) g))
  ∧ (ap g < 2 → failsWith InsufficientAP (fire (gather TILES) g)).
Proof.
  intros Ht. rewrite fire_gather, Ht. repeat split; try done.
  - rewrite bool_decide_eq_false_2 by lia. by rewrite bool_decide_eq_true_2.
  - rewrite bool_decide_eq_false_2 by lia. by rewrite bool_decide_eq_true_2.
  - rewrite bool_decide_eq_false_2 by lia. rewrite bool_decide_eq_false_2 by done.
    by rewrite bool_decide_eq_true_2.
  - rewrite bool_decide_eq_false_2 by lia. rewrite bool_decide_eq_false_2 by done.
    by rewrite bool_decide_eq_true_2.
  - by rewrite bool_decide_eq_true_2.
  - by rewrite bool_decide_eq_true_2.
Qed.

Lemma gather_refusals_witness :
  failsWith InvalidLocation (fire (gather TILE_DATA) initial)
  ∧ failsWith NothingToGather (fire (gather BARREN) (eastOfHome 2))
  ∧ failsWith InsufficientAP (fire (gather TILE_DATA) (eastOfHome 1)).
Proof.
  split; [|split].
  - apply (gather_refusals TILE_DATA initial (mkTile "home" "#8B4513" "home" [])).
    + vm_compute. reflexivity.
    + vm_compute. discriminate.
    + reflexivity.
  - apply (gather_refusals BARREN (eastOfHome 2) (mkTile "plain" "#F0E68C" "plain" [])).
    + vm_compute. reflexivity.
    + vm_compute. discriminate.
    + vm_compute. discriminate.
    + reflexivity.
  - apply (gather_refusals TILE_DATA (eastOfHome 1)
             (mkTile "plain" "#F0E68C" "plain" [("wood", 3); ("herbs", 1)])).
    + vm_compute. reflexivity.
    + vm_compute. reflexivity.
Defined.

(** ** Action points *)

Lemma reachable_run TILES actions g : reachable TILES g → reachable TILES (run TILES g actions).
Proof.
  revert g. induction actions as [|a actions IH]; intros g Hg; [done|].
  apply IH. by constructor.
Qed.

(** C4: an operation started with action points between 0 and 8 ends,
    accepted or refused, with action points between 0 and 8; hence every
    state of a session has its action points in that range. *)
Theorem action_points_in_range (TILES : gmap string Tile) :
  (∀ g a, 0 ≤ ap g ≤ 8 → 0 ≤ ap (step TILES g a) ≤ 8)
  ∧ (∀ g, reachable TILES g → 0 ≤ ap g ≤ 8).
Proof. split; [apply ap_step | apply ap_reachable]. Qed.

Lemma action_points_in_range_witness :
  0 ≤ ap (step TILE_DATA initial Gather) ≤ 8
  ∧ 0 ≤ ap (run TILE_DATA initial [Move Dir.N; Gather; Alchemy; RestoreAP; Gather]) ≤ 8.
Proof.
  split.
  - apply (proj1 (action_points_in_range TILE_DATA) initial Gather). vm_compute.
    split; discriminate.
  - apply (proj2 (action_points_in_range TILE_DATA)).
    apply reachable_run, reachable_initial.
Defined.

(** ** All or nothing *)

(** The outcome of each operation on position, action points and
    inventory, by whether its preconditions hold. *)
Lemma operation_outcome (TILES : gmap string Tile) (g : Game) :
  (∀ d,
      if decide (1 ≤ ap g ∧ is_Some (TILES !! keyOf (target (playerPos g) d)))
      then playerState (step TILES g (Move d))
           = (target (playerPos g) d, ap g - 1, inventory g)
      else playerState (step TILES g (Move d)) = playerState g)
  ∧ (∀ t, TILES !! keyOf (playerPos g) = Some t →
      if decide (2 ≤ ap g ∧ type t ≠ "home" ∧ resources t ≠ [])
      then playerState (step TILES g Gather)
           = (playerPos g, ap g - 2, addResources (resources t) (inventory g))
      else playerState (step TILES g Gather) = playerState g)
  ∧ (TILES !! keyOf (playerPos g) = None →
      playerState (step TILES g Gather) = playerState g)
  ∧ (if decide (2 ≤ ap g ∧ playerPos g = {| q := 0; r := 0 |})
     then playerState (step TILES g Alchemy) = (playerPos g, ap g - 2, inventory g)
     else playerState (step TILES g Alchemy) = playerState g).
Proof.
  split; [|split; [|split]].
  - intros d. unfold step; cbn [handler]. rewrite fire_move.
    case_decide as H; case_bool_decide; destruct (TILES !! _) eqn:E; try done.
    + lia.
    + lia.
    + by destruct H as [_ [? ?]].
    + destruct H. split; [lia|by eexists].
  - intros t Ht. unfold step; cbn [handler]. rewrite fire_gather, Ht.
    case_decide as H; repeat case_bool_decide; try done; try lia; try tauto.
    destruct H. split; [lia|done].
  - apply step_gather_absent.
  - unfold step; cbn [handler]. rewrite fire_alchemy. unfold atHome.
    destruct g as [[q0 r0] a0 inv0 msg0]; cbn [playerPos ap inventory q r].
    destruct (decide _) as [[Ha Hp]|Hn].
    + injection Hp as -> ->. by rewrite bool_decide_eq_false_2 by lia.
    + case_bool_decide; [done|].
      destruct (bool_decide (q0 = 0)) eqn:E1, (bool_decide (r0 = 0)) eqn:E2; try done.
      apply bool_decide_eq_true in E1, E2. subst. destruct Hn. split; [lia|done].
Qed.

(** C5: an operation whose preconditions do not all hold leaves position,
    action points and inventory exactly as they were; an operation whose
    preconditions hold applies its whole effect.  No state in between is
    ever produced. *)
Theorem refused_operation_changes_nothing (TILES : gmap string Tile) (g : Game) :
  (∀ d, ¬ movePre TILES d g → playerState (step TILES g (Move d)) = playerState g)
  ∧ (¬ gatherPre TILES g → playerState (step TILES g Gather) = playerState g)
  ∧ (¬ alchemyPre g → playerState (step TILES g Alchemy) = playerState g)
  ∧ (∀ d, movePre TILES d g →
       playerState (step TILES g (Move d)) = (target (playerPos g) d, ap g - 1, inventory g))
  ∧ (∀ t, gatherPre TILES g → TILES !! keyOf (playerPos g) = Some t →
       playerState (step TILES g Gather)
       = (playerPos g, ap g - 2, addResources (resources t) (inventory g)))
  ∧ (alchemyPre g →
       playerState (step TILES g Alchemy) = (playerPos g, ap g - 2, inventory g)).
Proof.
  destruct (operation_outcome TILES g) as (Hmove & Hgather & Habsent & Halchemy).
  unfold movePre, gatherPre, alchemyPre. repeat split.
  - intros d Hn. specialize (Hmove d).
    destruct (decide _) as [Hp|_]; [by destruct Hn|exact Hmove].
  - intros Hn. destruct (TILES !! keyOf (playerPos g)) as [t|] eqn:Ht; [|by apply Habsent].
    specialize (Hgather t eq_refl).
    destruct (decide _) as [(? & ? & ?)|_]; [|exact Hgather].
    destruct Hn. eauto.
  - intros Hn. destruct (decide _) as [Hp|_]; [by destruct Hn|exact Halchemy].
  - intros d Hpre. specialize (Hmove d).
    destruct (decide _) as [_|Hn]; [exact Hmove|by destruct Hn].
  - intros t (Hap & t' & Ht' & Hhome & Hres) Ht.
    assert (t' = t) as -> by congruence.
    specialize (Hgather t Ht).
    destruct (decide _) as [_|Hn]; [exact Hgather|by destruct Hn].
  - intros Hpre. destruct (decide _) as [_|Hn]; [exact Halchemy|by destruct Hn].
Qed.

Lemma refused_operation_changes_nothing_witness :
  playerState (step TILE_DATA (onRim 8) (Move Dir.N)) = playerState (onRim 8)
  ∧ playerState (step TILE_DATA initial Gather) = playerState initial
  ∧ playerState (step TILE_DATA (onRim 8) Alchemy) = playerState (onRim 8)
  ∧ playerState (step TILE_DATA (onRim 8) (Move Dir.S))
    = (target (playerPos (onRim 8)) Dir.S, ap (onRim 8) - 1, inventory (onRim 8)).
Proof.
  pose proof (refused_operation_changes_nothing TILE_DATA initial) as (_ & Hg & _).
  pose proof (refused_operation_changes_nothing TILE_DATA (onRim 8))
    as (Hm & _ & Ha & Hm' & _).
  split; [|split; [|split]].
  - apply Hm. intros [_ H]. vm_compute in H. destruct H as [t H]. discriminate.
  - apply Hg. intros (_ & t & Ht & Hhome & _). vm_compute in Ht.
    injection Ht as <-. by apply Hhome.
  - apply Ha. intros [_ H]. discriminate.
  - apply Hm'. split; [vm_compute; discriminate|]. vm_compute. by eexists.
Defined.

(** ** Gathering: what is added *)

Lemma orZero_default (x : option Z) : orZero x = default 0 x.
Proof. destruct x as [v|]; [|done]. simpl. by case_bool_decide. Qed.

Lemma addResources_cons k a rest inv :
  addResources ((k, a) :: rest) inv
  = addResources rest (<[k := count inv k + a]> inv).
Proof. unfold addResources, count. simpl. by rewrite orZero_default. Qed.

Lemma count_insert inv k v k' :
  count (<[k := v]> inv) k' = if decide (k = k') then v else count inv k'.
Proof. unfold count. rewrite lookup_insert. by case_decide. Qed.

Lemma count_addResources entries inv k :
  count (addResources entries inv) k = count inv k + yieldOf entries k.
Proof.
  revert inv. induction entries as [|[k' a] rest IH]; intros inv.
  - simpl. unfold addResources; simpl. lia.
  - rewrite addResources_cons, IH, count_insert. simpl.
    case_decide; subst; lia.
Qed.

Lemma yieldOf_nonneg entries k :
  Forall (λ ra : string * Z, 0 < ra.2) entries → 0 ≤ yieldOf entries k.
Proof.
  induction 1 as [|[k' a] rest Ha _ IH]; simpl in *; [done|].
  case_decide; lia.
Qed.

Lemma lookup_addResources entries inv k v :
  inv !! k = Some v →
  addResources entries inv !! k = Some (v + yieldOf entries k).
Proof.
  revert inv v. induction entries as [|[k' a] rest IH]; intros inv v Hv.
  - unfold addResources; simpl. rewrite Hv. f_equal; lia.
  - rewrite addResources_cons. simpl. destruct (decide (k' = k)) as [->|Hne].
    + erewrite IH; [|apply lookup_insert_eq]. unfold count. rewrite Hv. simpl.
      f_equal; lia.
    + erewrite IH; [|by rewrite lookup_insert_ne]. f_equal; lia.
Qed.

Lemma addResources_nonneg entries inv :
  Forall (λ ra : string * Z, 0 < ra.2) entries →
  map_Forall (λ _ v, 0 ≤ v) inv →
  map_Forall (λ _ v, 0 ≤ v) (addResources entries inv).
Proof.
  intros Hpos. revert inv. induction Hpos as [|[k a] rest Ha _ IH]; intros inv Hinv; [done|].
  rewrite addResources_cons. apply IH. apply map_Forall_insert_2; [|done].
  simpl in Ha. unfold count. destruct (inv !! k) as [v|] eqn:E; simpl; [|lia].
  apply Hinv in E. lia.
Qed.

Lemma TILE_DATA_amounts key t :
  TILE_DATA !! key = Some t → Forall (λ ra : string * Z, 0 < ra.2) (resources t).
Proof.
  intros Ht. apply TILE_DATA_lookup in Ht.
  exact (proj1 (Forall_forall _ _) TILE_ENTRIES_amounts _ Ht).
Qed.

Lemma TILE_ENTRIES_barren :
  Forall (λ e, type e.2 = "home" ↔ resources e.2 = []) TILE_ENTRIES.
Proof. compute_done. Qed.

Lemma TILE_DATA_home_barren key t :
  TILE_DATA !! key = Some t → type t = "home" → resources t = [].
Proof.
  intros Ht. apply TILE_DATA_lookup in Ht.
  apply (proj1 (Forall_forall _ _) TILE_ENTRIES_barren _ Ht).
Qed.

Lemma gatherSucceeds_true TILES g :
  gatherSucceeds TILES g = true ↔ gatherPre TILES g.
Proof.
  unfold gatherSucceeds, gatherPre. rewrite andb_true_iff, bool_decide_eq_true.
  destruct (TILES !! _) as [t|].
  - rewrite andb_true_iff, !bool_decide_eq_true. split.
    + intros (? & ? & ?). eauto.
    + intros (? & t' & ? & ? & ?). by simplify_eq.
  - split; [by intros [_ ?]|]. by intros (_ & t & ? & _).
Qed.

(** What a [Gather] click does to the inventory, by the outcome of the
    guards. *)
Lemma inventory_step_gather TILES g :
  inventory (step TILES g Gather) =
    if gatherSucceeds TILES g
    then match TILES !! keyOf (playerPos g) with
         | Some t => addResources (resources t) (inventory g)
         | None => inventory g
         end
    else inventory g.
Proof.
  unfold step; cbn [handler]. rewrite fire_gather. unfold gatherSucceeds.
  destruct (TILES !! _) as [t|]; repeat case_bool_decide; simpl; try done; lia.
Qed.

Lemma inventory_step_other TILES g a :
  a ≠ Gather → inventory (step TILES g a) = inventory g.
Proof.
  intros Ha. unfold step. destruct a as [d| | |]; cbn [handler]; [|done| |].
  - rewrite fire_move. case_bool_decide; [done|]. by destruct (TILES !! _).
  - rewrite fire_alchemy. case_bool_decide; [done|]. by destruct (atHome g).
  - by rewrite fire_restoreAP.
Qed.

Lemma playerPos_step_stay TILES g a :
  (∀ d, a ≠ Move d) → playerPos (step TILES g a) = playerPos g.
Proof.
  intros Ha. unfold step. destruct a as [d| | |]; cbn [handler].
  - by destruct (Ha d).
  - rewrite fire_gather. case_bool_decide; [done|].
    destruct (TILES !! _); [|done]. by repeat case_bool_decide.
  - rewrite fire_alchemy. case_bool_decide; [done|]. by destruct (atHome g).
  - by rewrite fire_restoreAP.
Qed.

Lemma count_run_in_place TILES g t actions k :
  TILES !! keyOf (playerPos g) = Some t →
  Forall (λ a, ∀ d, a ≠ Move d) actions →
  count (inventory (run TILES g actions)) k
  = count (inventory g) k
    + Z.of_nat (successfulGathers TILES g actions) * yieldOf (resources t) k.
Proof.
  intros Ht Hstay. revert g Ht.
  induction Hstay as [|a actions Ha _ IH]; intros g Ht; [simpl; lia|].
  cbn [run foldl successfulGathers]. fold (run TILES (step TILES g a) actions).
  rewrite IH by (by rewrite playerPos_step_stay).
  destruct (decide (a = Gather)) as [->|Hng].
  - rewrite inventory_step_gather, Ht.
    destruct (gatherSucceeds TILES g); [rewrite count_addResources|]; lia.
  - rewrite inventory_step_other by done. destruct a; try done; lia.
Qed.

Lemma inventory_nonneg g :
  reachable TILE_DATA g → map_Forall (λ _ v, 0 ≤ v) (inventory g).
Proof.
  induction 1 as [|g a _ IH]; [apply map_Forall_empty|].
  destruct (decide (a = Gather)) as [->|Hng]; [|by rewrite inventory_step_other].
  rewrite inventory_step_gather.
  destruct (gatherSucceeds TILE_DATA g); [|done].
  destruct (TILE_DATA !! _) as [t|] eqn:Ht; [|done].
  apply addResources_nonneg; [|done]. by eapply TILE_DATA_amounts.
Qed.

Lemma inventory_grows g a k v :
  inventory g !! k = Some v →
  ∃ v', inventory (step TILE_DATA g a) !! k = Some v' ∧ v ≤ v'.
Proof.
  intros Hv.
  destruct (decide (a = Gather)) as [->|Hng];
    [|rewrite inventory_step_other by done; eauto with lia].
  rewrite inventory_step_gather.
  destruct (gatherSucceeds TILE_DATA g); [|eauto with lia].
  destruct (TILE_DATA !! _) as [t|] eqn:Ht; [|eauto with lia].
  exists (v + yieldOf (resources t) k). split; [by apply lookup_addResources|].
  pose proof (yieldOf_nonneg (resources t) k (TILE_DATA_amounts _ _ Ht)). lia.
Qed.

(** C7: a [gather] that passes its guards adds to every count exactly the
    amount the tile's table lists for that resource, whatever the
    inventory and the action points were, so two calls on one tile add
    the same amounts; over a run that stays on a tile the total added is
    the number of accepted calls times that amount; in every state of a
    session the counts are non-negative, and no operation lowers or
    removes a count. *)
Theorem gather_yield_additive :
  (∀ g t k,
      TILE_DATA !! keyOf (playerPos g) = Some t →
      2 ≤ ap g →
      (fire (gather TILE_DATA) g).1 = Returned ()
      ∧ count (inventory (step TILE_DATA g Gather)) k
        = count (inventory g) k + yieldOf (resources t) k)
  ∧ (∀ g t actions k,
      TILE_DATA !! keyOf (playerPos g) = Some t →
      Forall (λ a, ∀ d, a ≠ Move d) actions →
      count (inventory (run TILE_DATA g actions)) k
      = count (inventory g) k
        + Z.of_nat (successfulGathers TILE_DATA g actions) * yieldOf (resources t) k)
  ∧ (∀ g k v, reachable TILE_DATA g → inventory g !! k = Some v → 0 ≤ v)
  ∧ (∀ g a k v,
      inventory g !! k = Some v →
      ∃ v', inventory (step TILE_DATA g a) !! k = Some v' ∧ v ≤ v').
Proof.
  split; [|split; [|split]].
  - intros g t k Ht Hap. split.
    + rewrite fire_gather, Ht. by repeat case_bool_decide.
    + rewrite inventory_step_gather, Ht.
      destruct (gatherSucceeds TILE_DATA g) eqn:Hok; [apply count_addResources|].
      assert (resources t = []) as ->; [|simpl; lia].
      destruct (decide (type t = "home")) as [Hhome|Hhome];
        [by apply (TILE_DATA_home_barren _ _ Ht)|].
      destruct (resources t) as [|e l] eqn:Hres; [done|].
      apply not_true_iff_false in Hok. destruct Hok.
      apply gatherSucceeds_true. split; [exact Hap|]. exists t.
      split; [exact Ht|]. split; [exact Hhome|]. rewrite Hres. discriminate.
  - intros g t actions k. apply count_run_in_place.
  - intros g k v Hg Hv. by apply (inventory_nonneg g Hg k v).
  - apply inventory_grows.
Qed.

Lemma gather_yield_additive_witness :
  ((fire (gather TILE_DATA) northWithWood).1 = Returned ()
   ∧ count (inventory (step TILE_DATA northWithWood Gather)) "wood"
     = count (inventory northWithWood) "wood"
       + yieldOf [("wood", 3); ("herbs", 1)] "wood")
  ∧ count (inventory (run TILE_DATA northWithWood
                        [Gather; Gather; RestoreAP; Gather; Alchemy])) "herbs"
    = count (inventory northWithWood) "herbs"
      + Z.of_nat (successfulGathers TILE_DATA northWithWood
                    [Gather; Gather; RestoreAP; Gather; Alchemy])
        * yieldOf [("wood", 3); ("herbs", 1)] "herbs"
  ∧ (∃ v', inventory (step TILE_DATA northWithWood Gather) !! "wood" = Some v' ∧ 3 ≤ v').
Proof.
  pose proof gather_yield_additive as (Hsame & Hlinear & _ & Hgrow).
  split; [|split].
  - apply (Hsame northWithWood
             (mkTile "plain" "#F0E68C" "plain" [("wood", 3); ("herbs", 1)]) "wood").
    + vm_compute. reflexivity.
    + vm_compute. discriminate.
  - apply (Hlinear northWithWood
             (mkTile "plain" "#F0E68C" "plain" [("wood", 3); ("herbs", 1)])).
    + vm_compute. reflexivity.
    + repeat constructor; discriminate.
  - apply Hgrow. vm_compute. reflexivity.
Defined.

(** ** A session *)

(** C8: the scripted session [move N; gather; move S; gather; restoreAP]
    from the initial state, step by step. *)
Theorem scripted_session :
  let g1 := step TILE_DATA initial (Move Dir.N) in
  let g2 := step TILE_DATA g1 Gather in
  let g3 := step TILE_DATA g2 (Move Dir.S) in
  let g4 := step TILE_DATA g3 Gather in
  let g5 := step TILE_DATA g4 RestoreAP in
  playerState initial = ({| q := 0; r := 0 |}, 8, ∅)
  ∧ (playerState g1 = ({| q := 0; r := -1 |}, 7, ∅)
     ∧ fire (move TILE_DATA Dir.N) initial = (Returned (), g1)
     ∧ failure (message g1) = None)
  ∧ (playerState g2 = ({| q := 0; r := -1 |}, 5, {[ "wood" := 3; "herbs" := 1 ]})
     ∧ fire (gather TILE_DATA) g1 = (Returned (), g2)
     ∧ failure (message g2) = None)
  ∧ (playerState g3 = ({| q := 0; r := 0 |}, 4, {[ "wood" := 3; "herbs" := 1 ]})
     ∧ fire (move TILE_DATA Dir.S) g2 = (Returned (), g3)
     ∧ failure (message g3) = None)
  ∧ (playerState g4 = playerState g3
     ∧ ap g4 = 4
     ∧ failsWith InvalidLocation (fire (gather TILE_DATA) g3))
  ∧ (playerState g5 = ({| q := 0; r := 0 |}, 8, {[ "wood" := 3; "herbs" := 1 ]})
     ∧ fire restoreAP g4 = (Returned (), g5)).
Proof. cbv zeta. unfold failsWith. repeat split; vm_compute; reflexivity. Qed.

(** ** The player stays on the map *)

Lemma position_on_map_step TILES g a :
  is_Some (TILES !! keyOf (playerPos g)) →
  is_Some (TILES !! keyOf (playerPos (step TILES g a))).
Proof.
  intros Hg. destruct a as [d| | |]; [|by rewrite playerPos_step_stay..].
  unfold step; cbn [handler]. rewrite fire_move. case_bool_decide; [done|].
  destruct (TILES !! keyOf (target _ _)) eqn:E; [|done]. simpl. by rewrite E.
Qed.

(** C9: in every state of a session the player's position is a key of
    the tile table, so the lookup in [gather] finds a tile and [gather]
    returns without a [TypeError]: the session starts on a key of the
    table and [move] only stores a position it has found in the table. *)
Theorem position_on_map (TILES : gmap string Tile) (g : Game) :
  is_Some (TILES !! keyOf (playerPos initial)) →
  reachable TILES g →
  is_Some (TILES !! keyOf (playerPos g))
  ∧ (fire (gather TILES) g).1 = Returned ().
Proof.
  intros Hinit Hg.
  assert (is_Some (TILES !! keyOf (playerPos g))) as Hpos.
  { induction Hg as [|g a _ IH]; [done|]. by apply position_on_map_step. }
  split; [done|]. destruct Hpos as [t Ht]. rewrite fire_gather, Ht.
  by repeat case_bool_decide.
Qed.

Lemma position_on_map_witness :
  is_Some (TILE_DATA !! keyOf (playerPos (run TILE_DATA initial [Move Dir.NE; Move Dir.NE])))
  ∧ (fire (gather TILE_DATA) (run TILE_DATA initial [Move Dir.NE; Move Dir.NE])).1
    = Returned ().
Proof.
  apply (position_on_map TILE_DATA).
  - vm_compute. eexists. reflexivity.
  - apply reachable_run, reachable_initial.
Defined.

(** ** Home *)

Lemma TILE_DATA_home key t :
  TILE_DATA !! key = Some t → (type t = "home" ↔ key = "0,0").
Proof.
  intros Ht. apply TILE_DATA_lookup in Ht.
  exact (proj1 (Forall_forall _ _) TILE_ENTRIES_home _ Ht).
Qed.

(** C10: on every coordinate of the map the test [gather] uses to refuse
    (the tile's type is home) and the test [alchemy] uses to admit (both
    coordinates are zero) agree, and both agree with [atHome]. *)
Theorem home_tests_agree (g : Game) (t : Tile) :
  TILE_DATA !! keyOf (playerPos g) = Some t →
  (type t = "home" ↔ playerPos g = {| q := 0; r := 0 |})
  ∧ bool_decide (type t = "home")
    = negb (bool_decide (q (playerPos g) ≠ 0) || bool_decide (r (playerPos g) ≠ 0))
  ∧ bool_decide (type t = "home") = atHome g.
Proof.
  intros Ht.
  assert (type t = "home" ↔ playerPos g = {| q := 0; r := 0 |}) as Hiff.
  { rewrite (TILE_DATA_home _ _ Ht). split.
    - intros Hkey. by apply keyOf_inj.
    - by intros ->. }
  split; [done|]. clear Ht. unfold atHome.
  destruct (playerPos g) as [q0 r0]; cbn [q r] in *.
  destruct (decide (type t = "home")) as [Hh|Hh].
  - pose proof (proj1 Hiff Hh) as Hp. injection Hp as -> ->.
    rewrite bool_decide_eq_true_2 by done. by split.
  - rewrite (bool_decide_eq_false_2 _ Hh).
    assert (¬ (q0 = 0 ∧ r0 = 0)) as Hne by (intros [-> ->]; by apply Hh, Hiff).
    split; symmetry.
    + apply negb_false_iff, orb_true_iff. rewrite !bool_decide_eq_true. lia.
    + apply andb_false_iff. rewrite !bool_decide_eq_false. lia.
Qed.

Lemma home_tests_agree_witness :
  (type (mkTile "plain" "#F0E68C" "plain" [("wood", 3); ("herbs", 1)]) = "home"
   ↔ playerPos (eastOfHome 8) = {| q := 0; r := 0 |})
  ∧ bool_decide (type (mkTile "plain" "#F0E68C" "plain" [("wood", 3); ("herbs", 1)]) = "home")
    = negb (bool_decide (q (playerPos (eastOfHome 8)) ≠ 0)
            || bool_decide (r (playerPos (eastOfHome 8)) ≠ 0))
  ∧ bool_decide (type (mkTile "plain" "#F0E68C" "plain" [("wood", 3); ("herbs", 1)]) = "home")
    = atHome (eastOfHome 8).
Proof.
  apply (home_tests_agree (eastOfHome 8)). vm_compute. reflexivity.
Defined.

(** ** The authored map *)

(** C3, as written: the table does not have 52 entries. *)
Lemma tile_count_not_52 : size TILE_DATA ≠ 52%nat.
Proof. vm_compute. discriminate. Qed.

(** C3 (amended): the authored map is a fixed set of exactly 61 tiles: one
    Home tile at (0,0), the only tile of type home, with an empty resource
    table, and four full rings around it of 6, 12, 18 and 24 tiles, the
    tiles of ring [k] being those at distance [k] from Home. *)
Theorem authored_map :
  size TILE_DATA = 61%nat
  ∧ NoDup (TILE_ENTRIES.*1)
  ∧ (length RING_1, length RING_2, length RING_3, length RING_4) = (6, 12, 18, 24)%nat
  ∧ (∀ c, is_Some (TILE_DATA !! keyOf c) ↔ hexDistance c ≤ 4)
  ∧ (∀ k ring e,
        (k, ring) ∈ [(1, RING_1); (2, RING_2); (3, RING_3); (4, RING_4)] →
        e ∈ ring → ∃ c, e.1 = keyOf c ∧ hexDistance c = k)
  ∧ (∀ key t, TILE_DATA !! key = Some t → (type t = "home" ↔ key = "0,0"))
  ∧ TILE_DATA !! keyOf {| q := 0; r := 0 |} = Some (mkTile "home" "#8B4513" "home" []).
Proof.
  split; [by vm_compute|]. split; [apply TILE_ENTRIES_NoDup|].
  split; [done|]. split; [apply TILE_DATA_present|].
  split; [|split; [apply TILE_DATA_home|by vm_compute]].
  intros k ring e Hring He.
  destruct RING_keys as (H1 & H2 & H3 & H4).
  assert (Exists (λ c, e.1 = keyOf c) (ringCoords k)) as Hex.
  { rewrite !elem_of_cons, elem_of_nil in Hring.
    destruct Hring as [?|[?|[?|[?|[]]]]]; simplify_eq;
      [exact (proj1 (Forall_forall _ _) H1 _ He)
      |exact (proj1 (Forall_forall _ _) H2 _ He)
      |exact (proj1 (Forall_forall _ _) H3 _ He)
      |exact (proj1 (Forall_forall _ _) H4 _ He)]. }
  apply Exists_exists in Hex as (c & Hc & Hkey).
  exists c. split; [done|]. by apply elem_of_ringCoords.
Qed.

Lemma authored_map_witness :
  (is_Some (TILE_DATA !! keyOf {| q := -3; r := 4 |}) ↔ hexDistance {| q := -3; r := 4 |} ≤ 4)
  ∧ (∃ c, "2,-3" = keyOf c ∧ hexDistance c = 3)
  ∧ (type (mkTile "home" "#8B4513" "home" []) = "home" ↔ "0,0" = "0,0").
Proof.
  pose proof authored_map as (_ & _ & _ & Hdisc & Hring & Hhome & _).
  split; [apply Hdisc|]. split.
  - apply (Hring 3 RING_3 ("2,-3", mkTile "water" "#4682B4" "water" [("wheat", 2)])).
    + vm_compute. do 2 right. left.
    + vm_compute. do 2 right. left.
  - apply (Hhome "0,0"). vm_compute. reflexivity.
Defined.

(** * Further properties of the component *)

(** ** Keys read back *)

Lemma split_commaFree (s : string) : commaFree s → split s = [s].
Proof.
  induction s as [|c s IH]; [done|]. intros [Hc Hs]. simpl.
  rewrite decide_False by done. by rewrite IH.
Qed.

Lemma split_app_comma (s1 s2 : string) :
  commaFree s1 → split (s1 +:+ "," +:+ s2) = s1 :: split s2.
Proof.
  induction s1 as [|c s1 IH]; [done|]. intros [Hc Hs]. simpl.
  rewrite decide_False by done. by rewrite IH.
Qed.

Lemma digitValue_pretty_N_char (d : N) :
  (d < 10)%N → digitValue (pretty_N_char d) = Some (Z.of_N d).
Proof.
  intros Hd.
  assert (d ∈ [0; 1; 2; 3; 4; 5; 6; 7; 8; 9]%N) as Hin.
  { rewrite !elem_of_cons. lia. }
  rewrite !elem_of_cons, elem_of_nil in Hin.
  destruct Hin as [->|[->|[->|[->|[->|[->|[->|[->|[->|[->|[]]]]]]]]]]]; reflexivity.
Qed.

Lemma digitsValue_pretty_N_go (x : N) (s : string) :
  digitsValue 0 (pretty_N_go x s) = digitsValue (Z.of_N x) s.
Proof.
  revert s. induction (N.lt_wf_0 x) as [x _ IH]; intros s.
  destruct (decide (x = 0)%N) as [->|Hx]; [by rewrite pretty_N_go_0|].
  rewrite pretty_N_go_step by lia.
  rewrite IH by (apply N.div_lt; lia). simpl.
  rewrite digitValue_pretty_N_char by (apply N.mod_lt; lia).
  f_equal. rewrite N2Z.inj_div, N2Z.inj_mod. simpl.
  pose proof (Z.div_mod (Z.of_N x) 10). lia.
Qed.

Lemma pretty_N_go_nonempty (x : N) (s : string) :
  s ≠ EmptyString → pretty_N_go x s ≠ EmptyString.
Proof.
  revert s. induction (N.lt_wf_0 x) as [x _ IH]; intros s Hs.
  destruct (decide (x = 0)%N) as [->|Hx]; [by rewrite pretty_N_go_0|].
  rewrite pretty_N_go_step by lia. apply IH; [apply N.div_lt; lia|done].
Qed.

Lemma Number_pretty_pos (p : positive) :
  pretty_N_go (N.pos p) EmptyString ≠ EmptyString
  ∧ Number (pretty_N_go (N.pos p) EmptyString) = Some (Z.pos p).
Proof.
  assert (pretty_N_go (N.pos p) EmptyString ≠ EmptyString) as Hne.
  { rewrite pretty_N_go_step by lia. by apply pretty_N_go_nonempty. }
  split; [done|].
  pose proof (digitsValue_pretty_N_go (N.pos p) EmptyString) as Hval.
  pose proof (pretty_N_go_ne_dash (N.pos p) EmptyString) as Hdash.
  destruct (pretty_N_go (N.pos p) EmptyString) as [|c rest]; [done|].
  unfold Number. rewrite decide_False; [exact Hval|].
  intros ->. by apply (Hdash rest).
Qed.

Lemma Number_pretty (z : Z) : Number (pretty z) = Some z.
Proof.
  destruct z as [|p|p]; [done| |].
  - apply Number_pretty_pos.
  - destruct (Number_pretty_pos p) as [Hne Hnum].
    change (pretty (Z.neg p)) with (String "-" (pretty_N_go (N.pos p) EmptyString)).
    unfold Number at 1. rewrite decide_True by done. rewrite decide_False by done.
    pose proof (digitsValue_pretty_N_go (N.pos p) EmptyString) as Hval.
    rewrite Hval. reflexivity.
Qed.

Lemma key_parts (c : Pos) :
  Number <$> split (keyOf c) = [Some (q c); Some (r c)].
Proof.
  unfold keyOf. rewrite split_app_comma by apply pretty_Z_commaFree.
  rewrite split_commaFree by apply pretty_Z_commaFree.
  simpl. by rewrite !Number_pretty.
Qed.

(** X4: the render reads a key back into the coordinate it was made
    from: splitting [keyOf c] at the comma gives two pieces, and [Number]
    of them is [q c] and [r c]. *)
Theorem key_round_trip (c : Pos) :
  Number <$> split (keyOf c) = [Some (q c); Some (r c)].
Proof. apply key_parts. Qed.

(** ** The player marker *)

Lemma isPlayer_keyOf (c : Pos) (g : Game) :
  isPlayer (keyOf c) g = Some (bool_decide (c = playerPos g)).
Proof.
  unfold isPlayer.
  pose proof (key_parts c) as Hparts.
  destruct (split (keyOf c)) as [|sq [|sr [|? ?]]]; try done.
  simpl in Hparts. injection Hparts as -> ->. f_equal.
  destruct c as [q0 r0], (playerPos g) as [q1 r1]; simpl.
  repeat case_bool_decide; simplify_eq; done.
Qed.

Lemma TILE_DATA_key (key : string) (t : Tile) :
  TILE_DATA !! key = Some t → ∃ c, key = keyOf c.
Proof.
  intros Ht. apply TILE_DATA_lookup in Ht.
  pose proof (proj1 (Forall_forall _ _) TILE_ENTRIES_keys _ Ht) as Hex.
  apply Exists_exists in Hex as (c & _ & Hkey). by exists c.
Qed.

Lemma reachable_on_map TILES g :
  is_Some (TILES !! keyOf (playerPos initial)) →
  reachable TILES g → is_Some (TILES !! keyOf (playerPos g)).
Proof.
  intros Hinit. induction 1 as [|g a _ IH]; [done|]. by apply position_on_map_step.
Qed.

Lemma TILE_DATA_initial : is_Some (TILE_DATA !! keyOf (playerPos initial)).
Proof. vm_compute. by eexists. Qed.

Lemma filter_key_unique {V : Type} (l : list (string * V)) (k : string) (v : V) :
  NoDup (l.*1) → (k, v) ∈ l → filter (λ e, e.1 = k) l = [(k, v)].
Proof.
  induction l as [|[k' v'] l IH]; [by rewrite elem_of_nil|].
  rewrite fmap_cons, NoDup_cons, elem_of_cons. simpl. intros [Hk' Hnd] [Heq|Hin].
  - simplify_eq. rewrite filter_cons_True by done. f_equal.
    destruct (filter (λ e, e.1 = k') l) as [|e l'] eqn:Hf; [done|].
    assert (e ∈ filter (λ e, e.1 = k') l) as He by (rewrite Hf; left).
    apply list_elem_of_filter in He as [<- He]. destruct Hk'.
    apply list_elem_of_fmap. by exists e.
  - assert (k' ≠ k) as Hne.
    { intros ->. apply Hk'. apply list_elem_of_fmap. by exists (k, v). }
    rewrite filter_cons_False by done. by apply IH.
Qed.

Lemma filter_agree {A : Type} (P Q : A → Prop)
    `{!∀ x, Decision (P x)} `{!∀ x, Decision (Q x)} (l : list A) :
  (∀ x, x ∈ l → (P x ↔ Q x)) → filter P l = filter Q l.
Proof.
  induction l as [|x l IH]; [done|]. intros Hagree.
  assert (filter P l = filter Q l) as Hl.
  { apply IH. intros y Hy. apply Hagree. by right. }
  destruct (decide (P x)) as [HP|HP].
  - rewrite !filter_cons_True; [by rewrite Hl| |done]. apply Hagree; [left|done].
  - rewrite !filter_cons_False; [done| |done]. intros HQ. apply HP, Hagree; [left|done].
Qed.

(** X5: of the tiles the render draws, the one it marks as the player's
    is the tile under the player's position and no other; in every state
    of a session exactly one tile carries the marker. *)
Theorem player_marker (g : Game) :
  (∀ key t, TILE_DATA !! key = Some t →
            isPlayer key g = Some (bool_decide (key = keyOf (playerPos g))))
  ∧ (reachable TILE_DATA g →
     length (filter (λ e, isPlayer e.1 g = Some true) TILE_ENTRIES) = 1%nat).
Proof.
  assert (∀ key t, TILE_DATA !! key = Some t →
            isPlayer key g = Some (bool_decide (key = keyOf (playerPos g)))) as Hmark.
  { intros key t Ht. destruct (TILE_DATA_key _ _ Ht) as [c ->].
    rewrite isPlayer_keyOf. f_equal. apply bool_decide_ext. split; [by intros ->|].
    apply keyOf_inj. }
  split; [done|]. intros Hg.
  destruct (reachable_on_map _ _ TILE_DATA_initial Hg) as [t Ht].
  rewrite (filter_agree _ (λ e, e.1 = keyOf (playerPos g))).
  - rewrite (filter_key_unique _ _ t TILE_ENTRIES_NoDup); [done|].
    by apply TILE_DATA_lookup.
  - intros [key t'] Hin. apply TILE_DATA_lookup in Hin. simpl.
    rewrite (Hmark _ _ Hin). split.
    + intros [= Hb]. by apply bool_decide_eq_true in Hb.
    + intros ->. by rewrite bool_decide_eq_true_2.
Qed.

Lemma player_marker_witness :
  isPlayer "0,-1" (step TILE_DATA initial (Move Dir.N)) = Some true
  ∧ isPlayer "0,0" (step TILE_DATA initial (Move Dir.N)) = Some false
  ∧ length (filter (λ e, isPlayer e.1 (step TILE_DATA initial (Move Dir.N)) = Some true)
              TILE_ENTRIES) = 1%nat.
Proof.
  pose proof (player_marker (step TILE_DATA initial (Move Dir.N))) as [Hmark Hone].
  split; [|split].
  - apply (Hmark "0,-1" (mkTile "plain" "#F0E68C" "plain" [("wood", 3); ("herbs", 1)])).
    vm_compute. reflexivity.
  - apply (Hmark "0,0" (mkTile "home" "#8B4513" "home" [])).
    vm_compute. reflexivity.
  - apply Hone. apply reachable_step, reachable_initial.
Defined.

(** ** Refusals are shown, successes are not *)

Lemma failure_moved (rest : string) : failure ("Moved " +:+ rest) = None.
Proof. unfold failure. repeat case_decide; try done; discriminate. Qed.

Lemma failure_gathered (rest : string) : failure ("Gathered: " +:+ rest) = None.
Proof. unfold failure. repeat case_decide; try done; discriminate. Qed.

(** X9: a click shows a refusal message exactly when the preconditions
    of its operation do not hold: an accepted [move], [gather], [alchemy]
    or [restoreAP] leaves a message that names no failure, and a refused
    one returns with the message of a failure of the taxonomy. *)
Theorem refusal_reported (TILES : gmap string Tile) (g : Game) :
  (∀ d, (movePre TILES d g → failure (message (step TILES g (Move d))) = None)
        ∧ (¬ movePre TILES d g → ∃ f, failsWith f (fire (move TILES d) g)))
  ∧ (is_Some (currentTile TILES g) →
     (gatherPre TILES g → failure (message (step TILES g Gather)) = None)
     ∧ (¬ gatherPre TILES g → ∃ f, failsWith f (fire (gather TILES) g)))
  ∧ ((alchemyPre g → failure (message (step TILES g Alchemy)) = None)
     ∧ (¬ alchemyPre g → ∃ f, failsWith f (fire alchemy g)))
  ∧ failure (message (step TILES g RestoreAP)) = None.
Proof.
  split; [|split; [|split; [|done]]].
  - intros d. unfold movePre, step; cbn [handler]. rewrite fire_move.
    split.
    + intros [Hap [t Ht]]. rewrite bool_decide_eq_false_2 by lia. rewrite Ht.
      apply failure_moved.
    + intros Hn. case_bool_decide; [by exists InsufficientAP|].
      destruct (TILES !! _) eqn:E; [|by exists InvalidDestination].
      destruct Hn. split; [lia|by eexists].
  - intros [t Ht]. unfold currentTile in Ht.
    unfold gatherPre, step; cbn [handler]. rewrite fire_gather, Ht. split.
    + intros (Hap & t' & Ht' & Hhome & Hres). assert (t' = t) as -> by congruence.
      rewrite bool_decide_eq_false_2 by lia.
      rewrite !bool_decide_eq_false_2 by done. apply failure_gathered.
    + intros Hn. case_bool_decide; [by exists InsufficientAP|].
      case_bool_decide; [by exists InvalidLocation|].
      case_bool_decide; [by exists NothingToGather|].
      destruct Hn. split; [lia|]. by exists t.
  - unfold alchemyPre, step; cbn [handler]. rewrite fire_alchemy. unfold atHome.
    destruct g as [[q0 r0] a0 inv0 msg0]; cbn [playerPos ap q r]. split.
    + intros [Hap [= -> ->]]. by rewrite bool_decide_eq_false_2 by lia.
    + intros Hn. case_bool_decide; [by exists InsufficientAP|].
      destruct (bool_decide (q0 = 0)) eqn:E1, (bool_decide (r0 = 0)) eqn:E2;
        try by exists InvalidLocation.
      apply bool_decide_eq_true in E1, E2. subst. destruct Hn. split; [lia|done].
Qed.

Lemma refusal_reported_witness :
  failure (message (step TILE_DATA initial (Move Dir.N))) = None
  ∧ (∃ f, failsWith f (fire (move TILE_DATA Dir.N) (onRim 8)))
  ∧ (∃ f, failsWith f (fire (gather TILE_DATA) initial))
  ∧ failure (message (step TILE_DATA (eastOfHome 2) Gather)) = None
  ∧ (∃ f, failsWith f (fire alchemy (eastOfHome 2))).
Proof.
  pose proof (refusal_reported TILE_DATA initial) as (Hm & Hg & _ & _).
  pose proof (refusal_reported TILE_DATA (onRim 8)) as (Hm' & _).
  pose proof (refusal_reported TILE_DATA (eastOfHome 2)) as (_ & Hg' & Ha' & _).
  split; [|split; [|split; [|split]]].
  - apply Hm. split; [vm_compute; discriminate|]. vm_compute. by eexists.
  - apply Hm'. intros [_ H]. vm_compute in H. destruct H as [t H]. discriminate.
  - apply Hg; [vm_compute; by eexists|].
    intros (_ & t & Ht & Hhome & _). vm_compute in Ht. injection Ht as <-. by apply Hhome.
  - apply Hg'; [vm_compute; by eexists|]. split; [vm_compute; discriminate|].
    exists (mkTile "plain" "#F0E68C" "plain" [("wood", 3); ("herbs", 1)]).
    split; [by vm_compute|]. split; discriminate.
  - apply Ha'. intros [_ H]. discriminate.
Defined.

(** ** Alchemy *)



(** ** Buttons *)

Lemma atHome_true (g : Game) : atHome g = true ↔ playerPos g = {| q := 0; r := 0 |}.
Proof.
  unfold atHome. rewrite andb_true_iff, !bool_decide_eq_true.
  destruct (playerPos g) as [q0 r0]; simpl. split; [by intros [-> ->]|by intros [= -> ->]].
Qed.

Lemma TILE_DATA_type_home (g : Game) (t : Tile) :
  TILE_DATA !! keyOf (playerPos g) = Some t → (type t = "home" ↔ atHome g = true).
Proof.
  intros Ht. rewrite (TILE_DATA_home _ _ Ht), atHome_true. split.
  - intros Hkey. by apply keyOf_inj.
  - by intros ->.
Qed.

(** X3: the render enables the Gather button exactly in the states in
    which [gather] would be accepted, and the Alchemy button exactly in
    the states in which [alchemy] would be accepted; in a session the
    computation of [canGather] never throws. *)
Theorem buttons_match_guards (g : Game) :
  (canGather TILE_DATA g = Returned true ↔ gatherPre TILE_DATA g)
  ∧ (canAlchemy g = true ↔ alchemyPre g)
  ∧ (reachable TILE_DATA g → canGather TILE_DATA g ≠ TypeError).
Proof.
  split; [|split].
  - unfold canGather, currentTile, gatherPre, Object_keys. split.
    + destruct (negb (atHome g) && bool_decide (2 ≤ ap g)) eqn:E; [|discriminate].
      apply andb_true_iff in E as [Hhome Hap]. apply bool_decide_eq_true in Hap.
      apply negb_true_iff in Hhome.
      destruct (TILE_DATA !! keyOf (playerPos g)) as [t|] eqn:Ht; [|discriminate].
      intros [= Hlen]. apply bool_decide_eq_true in Hlen.
      split; [done|]. exists t. split; [done|]. split.
      * intros Htype. apply (TILE_DATA_type_home g t Ht) in Htype. congruence.
      * intros Hres. rewrite Hres in Hlen. simpl in Hlen. lia.
    + intros (Hap & t & Ht & Htype & Hres). rewrite Ht.
      assert (atHome g = false) as ->.
      { apply not_true_iff_false. intros Hh. by apply Htype, (TILE_DATA_type_home g t Ht). }
      rewrite bool_decide_eq_true_2 by done. simpl. f_equal.
      apply bool_decide_eq_true_2. clear Ht.
      destruct (resources t) as [|e l]; [by destruct Hres|simpl; lia].
  - unfold canAlchemy, alchemyPre. rewrite andb_true_iff, bool_decide_eq_true, atHome_true.
    tauto.
  - intros Hg. destruct (reachable_on_map _ _ TILE_DATA_initial Hg) as [t Ht].
    unfold canGather, currentTile. rewrite Ht. by case_match.
Qed.

Lemma buttons_match_guards_witness :
  canGather TILE_DATA (run TILE_DATA initial [Move Dir.S; Move Dir.S]) ≠ TypeError.
Proof.
  apply (buttons_match_guards (run TILE_DATA initial [Move Dir.S; Move Dir.S])).
  apply reachable_run, reachable_initial.
Defined.

(** ** Action points are the only currency *)

Lemma ap_step_spend TILES g a :
  a ≠ RestoreAP →
  ap (step TILES g a) ≤ ap g
  ∧ (ap (step TILES g a) = ap g → playerState (step TILES g a) = playerState g).
Proof.
  intros Ha. unfold step. destruct a as [d| | |]; cbn [handler]; [| | |done].
  - rewrite fire_move. case_bool_decide; [done|].
    destruct (TILES !! _); simpl; [|done]. split; lia.
  - rewrite fire_gather. case_bool_decide; [done|].
    destruct (TILES !! _); [|done].
    repeat case_bool_decide; simpl; try done. split; lia.
  - rewrite fire_alchemy. case_bool_decide; [done|].
    destruct (atHome g); simpl; [|done]. split; lia.
Qed.

(** X11: between two [restoreAP] clicks the action points never rise,
    and a run that ends with the action points it started with has
    changed neither position nor inventory: nothing is moved or gathered
    for free. *)
Theorem no_free_action (TILES : gmap string Tile) (g : Game) (actions : list Action) :
  RestoreAP ∉ actions →
  ap (run TILES g actions) ≤ ap g
  ∧ (ap (run TILES g actions) = ap g →
     playerState (run TILES g actions) = playerState g).
Proof.
  revert g. induction actions as [|a actions IH]; intros g Hno; [done|].
  apply not_elem_of_cons in Hno as [Ha Hno].
  cbn [run foldl]. fold (run TILES (step TILES g a) actions).
  destruct (IH (step TILES g a) Hno) as [Hle Heq].
  destruct (ap_step_spend TILES g a) as [Hle' Heq']; [done|].
  split; [lia|]. intros Hsame.
  rewrite Heq by lia. apply Heq'. lia.
Qed.

Lemma no_free_action_witness :
  ap (run TILE_DATA initial [Move Dir.N; Gather; Move Dir.S; Alchemy]) ≤ ap initial.
Proof.
  apply (no_free_action TILE_DATA initial [Move Dir.N; Gather; Move Dir.S; Alchemy]).
  rewrite !not_elem_of_cons. repeat split; try discriminate. apply not_elem_of_nil.
Defined.

(** ** Moving about the map *)

Lemma target_opposite (c : Pos) (d : Direction) : target (target c d) (opposite d) = c.
Proof. destruct c as [q0 r0], d; unfold target; simpl; f_equal; lia. Qed.

(** X6: a move followed by the move in the opposite direction brings the
    player back: from a tile of the table with at least two action points
    and a neighbour in direction [d], the two clicks leave position and
    inventory as they were and cost two action points. *)
Theorem move_there_and_back (TILES : gmap string Tile) (g : Game) (d : Direction) :
  is_Some (TILES !! keyOf (playerPos g)) →
  2 ≤ ap g →
  is_Some (TILES !! keyOf (target (playerPos g) d)) →
  playerState (run TILES g [Move d; Move (opposite d)])
  = (playerPos g, ap g - 2, inventory g).
Proof.
  intros [t Ht] Hap [t' Ht']. cbn [run foldl]. unfold step; cbn [handler].
  rewrite (fire_move TILES d g), Ht'. rewrite bool_decide_eq_false_2 by lia.
  cbn [snd]. rewrite fire_move. cbn [ap playerPos].
  rewrite bool_decide_eq_false_2 by lia. rewrite target_opposite, Ht.
  unfold playerState; simpl. f_equal. f_equal. lia.
Qed.

Lemma move_there_and_back_witness :
  playerState (run TILE_DATA (onRim 8) [Move Dir.SE; Move (opposite Dir.SE)])
  = (playerPos (onRim 8), ap (onRim 8) - 2, inventory (onRim 8)).
Proof.
  apply (move_there_and_back TILE_DATA (onRim 8) Dir.SE).
  - vm_compute. by eexists.
  - vm_compute. discriminate.
  - vm_compute. by eexists.
Defined.

Lemma hexDistance_target (c : Pos) (d : Direction) :
  Z.abs (hexDistance (target c d) - hexDistance c) ≤ 1.
Proof.
  destruct c as [q0 r0]. unfold hexDistance, target.
  destruct d; cbn [q r DIRECTIONS];
    Z.to_euclidean_division_equations; lia.
Qed.

(** X7: the six offsets of [DIRECTIONS] are exactly the six coordinates
    at distance one from the origin, each listed once; so a click moves
    the player to an adjacent tile or not at all, and changes the
    distance from Home by at most one. *)
Theorem move_one_ring :
  (∀ off, hexDistance off = 1 ↔ ∃ d, DIRECTIONS d = off)
  ∧ (∀ d d', DIRECTIONS d = DIRECTIONS d' → d = d')
  ∧ (∀ TILES g a,
       Z.abs (hexDistance (playerPos (step TILES g a)) - hexDistance (playerPos g)) ≤ 1).
Proof.
  split; [|split].
  - intros off. rewrite <- elem_of_ringCoords. split.
    + intros Hin.
      assert (ringCoords 1 = DIRECTIONS <$> [Dir.NW; Dir.SW; Dir.N; Dir.S; Dir.NE; Dir.SE])
        as Hring by (by vm_compute).
      rewrite Hring in Hin. apply list_elem_of_fmap in Hin as (d & -> & _). by exists d.
    + intros [d <-]. apply elem_of_ringCoords. by destruct d.
  - intros d d'. destruct d, d'; simpl; intros [=]; done.
  - intros TILES g a.
    destruct a as [d| | |]; [|rewrite playerPos_step_stay by done; lia..].
    unfold step; cbn [handler]. rewrite fire_move. case_bool_decide; [simpl; lia|].
    destruct (TILES !! _); simpl; [apply hexDistance_target|lia].
Qed.

Lemma move_one_ring_witness : ∃ d, DIRECTIONS d = {| q := 1; r := -1 |}.
Proof. apply (proj1 move_one_ring). vm_compute. reflexivity. Defined.

Lemma DISC_paths :
  Forall (λ c,
            Z.of_nat (length (pathTo 4 (playerPos initial) c)) = hexDistance c
            ∧ playerPos (run TILE_DATA initial (Move <$> pathTo 4 (playerPos initial) c)) = c
            ∧ ap (run TILE_DATA initial (Move <$> pathTo 4 (playerPos initial) c))
              = 8 - hexDistance c)
         DISC.
Proof. compute_done. Qed.

(** X8: no tile of the map is out of reach.  For every coordinate at
    distance at most four from Home there is a sequence of as many moves
    as its distance that takes the player from the initial state to it,
    every move being accepted; at least four action points are left on
    arrival, enough to gather. *)
Theorem every_tile_reachable (c : Pos) :
  is_Some (TILE_DATA !! keyOf c) →
  ∃ ds : list Direction,
    Z.of_nat (length ds) = hexDistance c
    ∧ playerPos (run TILE_DATA initial (Move <$> ds)) = c
    ∧ ap (run TILE_DATA initial (Move <$> ds)) = 8 - hexDistance c
    ∧ 4 ≤ ap (run TILE_DATA initial (Move <$> ds)).
Proof.
  intros Hc. apply TILE_DATA_present in Hc as Hdist. apply elem_of_DISC in Hdist.
  destruct (proj1 (Forall_forall _ _) DISC_paths _ Hdist) as (Hlen & Hpos & Hap).
  exists (pathTo 4 (playerPos initial) c). repeat split; try done.
  apply TILE_DATA_present in Hc. lia.
Qed.

Lemma every_tile_reachable_witness :
  ∃ ds : list Direction,
    Z.of_nat (length ds) = hexDistance {| q := -3; r := 4 |}
    ∧ playerPos (run TILE_DATA initial (Move <$> ds)) = {| q := -3; r := 4 |}
    ∧ ap (run TILE_DATA initial (Move <$> ds)) = 8 - hexDistance {| q := -3; r := 4 |}
    ∧ 4 ≤ ap (run TILE_DATA initial (Move <$> ds)).
Proof.
  apply (every_tile_reachable {| q := -3; r := 4 |}). vm_compute. by eexists.
Defined.

Lemma DISC_neighbours :
  Forall (λ c, Exists (λ d, is_Some (TILE_DATA !! keyOf (target c d))) allDirections) DISC.
Proof. compute_done. Qed.

(** X2: [restoreAP] always returns and sets the action points to 8,
    whatever they were, leaving position and inventory alone; and in a
    session the player is never stuck: after [restoreAP] there is a
    direction in which [move] is accepted. *)
Theorem restore_then_move (TILES : gmap string Tile) (g : Game) :
  (fire restoreAP g = (Returned (), step TILES g RestoreAP)
   ∧ playerState (step TILES g RestoreAP) = (playerPos g, 8, inventory g))
  ∧ (reachable TILE_DATA g → ∃ d, movePre TILE_DATA d (step TILE_DATA g RestoreAP)).
Proof.
  split; [done|]. intros Hg.
  pose proof (reachable_on_map _ _ TILE_DATA_initial Hg) as Hpos.
  apply TILE_DATA_present, elem_of_DISC in Hpos.
  pose proof (proj1 (Forall_forall _ _) DISC_neighbours _ Hpos) as Hex.
  apply Exists_exists in Hex as (d & _ & Hd). exists d. split; [|exact Hd].
  vm_compute. discriminate.
Qed.

Lemma restore_then_move_witness :
  ∃ d, movePre TILE_DATA d
         (step TILE_DATA (run TILE_DATA initial [Move Dir.N; Gather; Gather; Gather]) RestoreAP).
Proof.
  apply (restore_then_move TILE_DATA). apply reachable_run, reachable_initial.
Defined.

(** ** The inventory *)

Lemma dom_addResources (entries : list (string * Z)) (inv : gmap string Z) :
  dom (addResources entries inv) = dom inv ∪ list_to_set entries.*1.
Proof.
  revert inv. induction entries as [|[k a] rest IH]; intros inv.
  - unfold addResources; simpl. by rewrite (right_id_L ∅ (∪)).
  - rewrite addResources_cons, IH, dom_insert_L. simpl.
    by rewrite (comm_L (∪) {[k]} (dom inv)), (assoc_L (∪)).
Qed.

Lemma lookup_addResources_other (entries : list (string * Z)) (inv : gmap string Z) k :
  k ∉ entries.*1 → addResources entries inv !! k = inv !! k.
Proof.
  revert inv. induction entries as [|[k' a] rest IH]; intros inv Hk; [done|].
  rewrite fmap_cons, not_elem_of_cons in Hk. destruct Hk as [Hne Hk].
  rewrite addResources_cons, IH by done. by rewrite lookup_insert_ne.
Qed.

(** X12: an accepted [gather] creates or updates the inventory entries of
    the resources the tile lists and only those: the keys of the new
    inventory are the old keys together with the tile's resources, and
    every entry of another resource is as before. *)
Theorem gather_touches_listed_only (TILES : gmap string Tile) (g : Game) (t : Tile) :
  TILES !! keyOf (playerPos g) = Some t →
  gatherPre TILES g →
  dom (inventory (step TILES g Gather))
  = dom (inventory g) ∪ list_to_set (Object_keys (resources t))
  ∧ (∀ k, k ∉ Object_keys (resources t) →
          inventory (step TILES g Gather) !! k = inventory g !! k).
Proof.
  intros Ht Hpre. apply gatherSucceeds_true in Hpre.
  rewrite inventory_step_gather, Hpre, Ht. unfold Object_keys. split.
  - apply dom_addResources.
  - intros k. apply lookup_addResources_other.
Qed.

Lemma gather_touches_listed_only_witness :
  dom (inventory (step TILE_DATA (eastOfHome 2) Gather))
  = dom (inventory (eastOfHome 2)) ∪ list_to_set (Object_keys [("wood", 3); ("herbs", 1)])
  ∧ (∀ k, k ∉ Object_keys [("wood", 3); ("herbs", 1)] →
          inventory (step TILE_DATA (eastOfHome 2) Gather) !! k
          = inventory (eastOfHome 2) !! k).
Proof.
  apply (gather_touches_listed_only TILE_DATA (eastOfHome 2)
           (mkTile "plain" "#F0E68C" "plain" [("wood", 3); ("herbs", 1)])).
  - vm_compute. reflexivity.
  - split; [vm_compute; discriminate|].
    exists (mkTile "plain" "#F0E68C" "plain" [("wood", 3); ("herbs", 1)]).
    split; [by vm_compute|]. split; discriminate.
Defined.

Lemma inventory_step_empty TILES g a :
  inventory (step TILES g a) = ∅ ↔
  inventory g = ∅ ∧ (a = Gather → gatherSucceeds TILES g = false).
Proof.
  destruct (decide (a = Gather)) as [->|Hng].
  - rewrite inventory_step_gather.
    destruct (gatherSucceeds TILES g) eqn:Hok;
      [|split; [by intros ->|by intros [-> _]]].
    apply gatherSucceeds_true in Hok as (_ & t & Ht & _ & Hres). rewrite Ht.
    split; [|by intros [_ H]; specialize (H eq_refl)].
    intros Hempty. exfalso.
    pose proof (dom_addResources (resources t) (inventory g)) as Hdom.
    rewrite Hempty, dom_empty_L in Hdom.
    destruct (resources t) as [|[k a] l]; [done|].
    assert (k ∈ (∅ : gset string)) as Hk.
    { rewrite Hdom. apply elem_of_union_r. simpl. apply elem_of_union_l.
      by apply elem_of_singleton. }
    by apply not_elem_of_empty in Hk.
  - rewrite inventory_step_other by done.
    split; [by intros ->|by intros [-> _]].
Qed.

(** X10: the inventory panel shows its placeholder (the inventory has no
    key) exactly as long as no [gather] has been accepted: after a run the
    inventory is empty if and only if it was empty before and none of the
    run's [gather] clicks passed the guards. *)
Theorem inventory_empty_until_gather (TILES : gmap string Tile) (g : Game)
    (actions : list Action) :
  size (inventory (run TILES g actions)) = 0%nat ↔
  size (inventory g) = 0%nat ∧ successfulGathers TILES g actions = 0%nat.
Proof.
  rewrite !map_size_empty_iff.
  revert g. induction actions as [|a actions IH]; intros g; [simpl; tauto|].
  cbn [run foldl successfulGathers]. fold (run TILES (step TILES g a) actions).
  rewrite IH, inventory_step_empty.
  assert (∀ n : nat, (match a with
                      | Gather => if gatherSucceeds TILES g then 1 else 0
                      | _ => 0
                      end + n = 0)%nat
                     ↔ (a = Gather → gatherSucceeds TILES g = false) ∧ n = 0%nat) as Hsum.
  { intros n. destruct a as [d| | |].
    - split; [intros ?; split; [discriminate|lia]|lia].
    - destruct (gatherSucceeds TILES g); split.
      + lia.
      + intros [Hf _]. by specialize (Hf eq_refl).
      + intros ?. split; [done|lia].
      + lia.
    - split; [intros ?; split; [discriminate|lia]|lia].
    - split; [intros ?; split; [discriminate|lia]|lia]. }
  rewrite Hsum. tauto.
Qed.
